(** * ACL: the thread-safe ordered map [TSMap] and its reader-writer lock

    A shallow embedding of [src/DataStructures/TSMap.tcc] and of the
    declarations of [src/Mutex/shared_mutex.h].

    Every public method of [TSMap] takes [m_mutex] on entry (a
    [shared_lock] for readers, a [std::lock_guard] for writers) and holds it
    until it returns, so a method is one atomic transition of the map.  The
    methods are therefore embedded as functions from the map before the call
    to the map after the call and the returned value. *)

From Stdlib Require Import String List Bool Arith ZArith Lia Sorted.
Import ListNotations.

(** ** Template parameters

    [Key] comes with the comparison the constructor installs
    ([[](Key k1, Key k2) { return k1 < k2; }]), with [operator==], which
    [findInfimum] uses, and with [Key{}].  [Value] comes with [Value{}]. *)

Class KeyType (Key : Type) : Type := {
  key_lt : Key -> Key -> bool;
  key_eqb : Key -> Key -> bool;
  key_default : Key
}.

Class ValueType (Value : Type) : Type := {
  value_default : Value
}.

(** The requirements [std::map] puts on the comparison (a strict total order
    on the keys) and the agreement of [operator==] with equality. *)
Class KeyLaws (Key : Type) `{KeyType Key} : Prop := {
  key_lt_irrefl : forall a, key_lt a a = false;
  key_lt_trans : forall a b c,
      key_lt a b = true -> key_lt b c = true -> key_lt a c = true;
  key_lt_total : forall a b,
      key_lt a b = false -> key_lt b a = false -> a = b;
  key_eqb_eq : forall a b, key_eqb a b = true <-> a = b
}.

#[export] Instance Z_KeyType : KeyType Z :=
  {| key_lt := Z.ltb; key_eqb := Z.eqb; key_default := 0%Z |}.

#[export] Instance nat_KeyType : KeyType nat :=
  {| key_lt := Nat.ltb; key_eqb := Nat.eqb; key_default := 0 |}.

#[export] Instance string_ValueType : ValueType string :=
  {| value_default := EmptyString |}.

#[export] Instance Z_ValueType : ValueType Z :=
  {| value_default := 0%Z |}.

#[export] Instance unit_ValueType : ValueType unit :=
  {| value_default := tt |}.

(** ** [std::map<Key, Value, std::function<bool(Key,Key)>>]

    The container is the sequence of its entries in iteration order; an
    iterator is a position in that sequence, [begin()] is position [0] and
    [end()] is the length.  The tree searches of the library are embedded by
    the scan that visits the entries in order, which reaches the same
    position on an ordered sequence. *)
Module StdMap.
Section StdMap.
Context {Key Value : Type} `{KeyType Key} `{ValueType Value}.

Definition t : Type := list (Key * Value).
Definition iterator : Type := nat.

Definition begin (m : t) : iterator := 0.
Definition end_ (m : t) : iterator := length m.

(** [*it] for a dereferenceable iterator. *)
Definition deref (m : t) (it : iterator) : Key * Value :=
  nth it m (key_default, value_default).
Definition first (m : t) (it : iterator) : Key := fst (deref m it).
Definition second (m : t) (it : iterator) : Value := snd (deref m it).

(** [m.lower_bound(k)]: the first position whose key is not less than [k]. *)
Fixpoint lower_bound (m : t) (k : Key) : iterator :=
  match m with
  | [] => 0
  | (k', _) :: m' => if key_lt k' k then S (lower_bound m' k) else 0
  end.

(** [m.find(k)]: the lower bound, unless [k] is less than the key there. *)
Definition find (m : t) (k : Key) : iterator :=
  let it := lower_bound m k in
  match nth_error m it with
  | Some (k', _) => if key_lt k k' then end_ m else it
  | None => end_ m
  end.

Definition insert_at (m : t) (it : iterator) (e : Key * Value) : t :=
  firstn it m ++ e :: skipn it m.

Definition erase_at (m : t) (it : iterator) : t :=
  firstn it m ++ skipn (S it) m.

(** [it->second = v] through a reference to the stored value. *)
Definition assign_second (m : t) (it : iterator) (v : Value) : t :=
  match nth_error m it with
  | Some (k, _) => firstn it m ++ (k, v) :: skipn (S it) m
  | None => m
  end.

(** [m.emplace(k, v)]: inserts unless an equivalent key is stored; returns
    the position of the entry with that key and whether it inserted. *)
Definition emplace (m : t) (k : Key) (v : Value) : t * (iterator * bool) :=
  let it := lower_bound m k in
  match nth_error m it with
  | Some (k', _) =>
      if key_lt k k' then (insert_at m it (k, v), (it, true))
      else (m, (it, false))
  | None => (insert_at m it (k, v), (it, true))
  end.

(** [m.erase(k)]: returns the number of entries removed. *)
Definition erase (m : t) (k : Key) : t * nat :=
  let it := find m k in
  if it =? end_ m then (m, 0) else (erase_at m it, 1).

(** [m.erase(it)]: returns the iterator following the removed entry. *)
Definition erase_it (m : t) (it : iterator) : t * iterator :=
  (erase_at m it, it).

(** [m[k] = v]: [operator[]] inserts [(k, Value{})] when [k] is not
    stored, then the assignment writes through the returned reference. *)
Definition index_assign (m : t) (k : Key) (v : Value) : t :=
  let '(m', (it, _)) := emplace m k value_default in
  assign_second m' it v.

(** The class invariant of the container: keys strictly increasing. *)
Fixpoint ordered (m : t) : bool :=
  match m with
  | [] => true
  | (k, _) :: m' =>
      match m' with
      | [] => true
      | (k', _) :: _ => key_lt k k' && ordered m'
      end
  end.

Definition keys (m : t) : list Key := map fst m.

(** The entries of [l] are all below, or all above, the key [k]. *)
Definition below (k : Key) (l : t) : Prop :=
  forall e, In e l -> key_lt (fst e) k = true.

Definition above (k : Key) (l : t) : Prop :=
  forall e, In e l -> key_lt k (fst e) = true.

End StdMap.
End StdMap.

Arguments StdMap.t : clear implicits.

(** ** [acl::TSMap<Key, Value>] *)
Module TSMap.
Section TSMap.
Context {Key Value : Type} `{KeyType Key} `{ValueType Value}.

#[local] Abbreviation map_t := (StdMap.t Key Value).

(** A [std::function<bool(Key, Value&)>]: the callable reads the stored
    value and may write it through the reference, and it may carry state of
    its own (its captures).  It is embedded as a function from the key, the
    stored value and the callable's state to the returned flag, the value it
    leaves in the entry and its new state.  An unset [std::function]
    ([nullptr], which is the default argument of [erase]) is [None]. *)
Definition callback (St : Type) : Type :=
  Key -> Value -> St -> bool * Value * St.

(** A callable that only inspects the entry. *)
Definition predicate (p : Key -> Value -> bool) : callback unit :=
  fun k v s => (p k v, v, s).

(** *** Read methods *)

Definition find (m_map : map_t) (k : Key) : Value * bool :=
  let it := StdMap.find m_map k in
  if negb (it =? StdMap.end_ m_map) then (StdMap.second m_map it, true)
  else (value_default, false).

Definition findInfimum (m_map : map_t) (k : Key) : Value * bool :=
  let it := StdMap.lower_bound m_map k in
  if negb (it =? StdMap.end_ m_map) && key_eqb (StdMap.first m_map it) k then
    (StdMap.second m_map it, true)
  else if it =? StdMap.begin m_map then
    (value_default, false)
  else
    let it := pred it in
    (StdMap.second m_map it, true).

Definition findInfimum_key (m_map : map_t) (k : Key) : (Key * Value) * bool :=
  let it := StdMap.lower_bound m_map k in
  if negb (it =? StdMap.end_ m_map) && key_eqb (StdMap.first m_map it) k then
    ((StdMap.first m_map it, StdMap.second m_map it), true)
  else if it =? StdMap.begin m_map then
    ((key_default, value_default), false)
  else
    let it := pred it in
    ((StdMap.first m_map it, StdMap.second m_map it), true).

Definition size (m_map : map_t) : nat := length m_map.

Definition getKeyList (m_map : map_t) : list Key := StdMap.keys m_map.

(** *** Write methods: each returns the map it leaves and its result *)

Definition emplace (m_map : map_t) (k : Key) (v : Value) (force : bool)
  : map_t * bool :=
  if negb force && negb (StdMap.find m_map k =? StdMap.end_ m_map) then
    (m_map, false)
  else
    let '(m1, _) := StdMap.erase m_map k in
    let '(m2, (_, inserted)) := StdMap.emplace m1 k v in
    (m2, inserted).

(** [construct] is the constructor of [Value] that the forwarded [args]
    select. *)
Definition createInPlace {Args : Type} (construct : Args -> Value)
    (m_map : map_t) (k : Key) (args : Args) : map_t * bool :=
  let '(m1, (_, inserted)) := StdMap.emplace m_map k (construct args) in
  (m1, inserted).

Definition replace (m_map : map_t) (k : Key) (v : Value) (force : bool)
  : map_t * (Value * bool) :=
  let newVal := v in
  let '(m1, (it_first, it_second)) := StdMap.emplace m_map k newVal in
  if negb it_second then
    let newVal := StdMap.second m1 it_first in
    let m2 := if force then StdMap.index_assign m1 k v else m1 in
    (m2, (newVal, it_second))
  else
    (m1, (newVal, it_second)).

Definition erase {St : Type} (m_map : map_t) (k : Key)
    (f : option (callback St)) (s : St) : map_t * St * bool :=
  let it := StdMap.find m_map k in
  if it =? StdMap.end_ m_map then (m_map, s, false)
  else
    match f with
    | None =>
        let '(m1, n) := StdMap.erase m_map k in (m1, s, n =? 1)
    | Some fn =>
        let '(b, v', s') := fn k (StdMap.second m_map it) s in
        let m1 := StdMap.assign_second m_map it v' in
        if b then
          let '(m2, n) := StdMap.erase m1 k in (m2, s', n =? 1)
        else (m1, s', false)
    end.

Definition remove (m_map : map_t) (k : Key) : map_t * (Value * bool) :=
  let it := StdMap.find m_map k in
  if negb (it =? StdMap.end_ m_map) then
    let ret := (StdMap.second m_map it, true) in
    (fst (StdMap.erase m_map k), ret)
  else (m_map, (value_default, false)).

(** *** Function iterators *)

(** The loop of [delete_if]; one unit of [fuel] pays for one test of
    [it != m_map.end()], and [None] means the fuel ran out. *)
Fixpoint delete_if_loop {St : Type} (fuel : nat) (f : callback St)
    (m_map : map_t) (it : StdMap.iterator) (numErased : nat) (s : St)
  : option (map_t * St * nat) :=
  match fuel with
  | 0 => None
  | S fuel' =>
      if it =? StdMap.end_ m_map then Some (m_map, s, numErased)
      else
        let '(b, v', s') :=
          f (StdMap.first m_map it) (StdMap.second m_map it) s in
        let m1 := StdMap.assign_second m_map it v' in
        if b then
          let '(m2, it') := StdMap.erase_it m1 it in
          delete_if_loop fuel' f m2 it' (S numErased) s'
        else
          delete_if_loop fuel' f m1 (S it) numErased s'
  end.

Definition delete_if {St : Type} (f : callback St) (m_map : map_t) (s : St)
  : option (map_t * St * nat) :=
  delete_if_loop (S (length m_map)) f m_map (StdMap.begin m_map) 0 s.

(** *** What the specification says of [delete_if]

    One pass over the entries in iteration order: [f] is called once on
    each entry, the entry is dropped when [f] answers [true] and stays (with
    the value [f] left in it) otherwise, and the dropped entries are
    counted.  [delete_if] is compared with this pass below. *)
Fixpoint delete_if_spec {St : Type} (f : callback St) (entries : map_t) (s : St)
  : map_t * St * nat :=
  match entries with
  | [] => ([], s, 0)
  | (k, v) :: rest =>
      let '(b, v', s1) := f k v s in
      let '(kept, s2, n) := delete_if_spec f rest s1 in
      if b then (kept, s2, S n) else ((k, v') :: kept, s2, n)
  end.

(** A callable that also records, in order, the keys it is called on. *)
Definition logged {St : Type} (f : callback St) : callback (list Key * St) :=
  fun k v ls =>
    let '(b, v', s') := f k v (snd ls) in
    (b, v', (fst ls ++ [k], s')).

(** *** The remaining methods *)

(** A [std::function<bool(Key, const Value&)>]: the callable reads the
    stored value and cannot write it; it may carry state of its own. *)
Definition callback_ro (St : Type) : Type := Key -> Value -> St -> bool * St.

(** A mutating callable that is handed a read-only one and leaves the value
    as it found it. *)
Definition read_only {St : Type} (f : callback_ro St) : callback St :=
  fun k v s => let '(b, s') := f k v s in (b, v, s').

(** [TSMap()]: the map starts without entries. *)
Definition create : map_t := [].

Definition lower_bound (m_map : map_t) (k : Key) : Value * bool :=
  let it := StdMap.lower_bound m_map k in
  if negb (it =? StdMap.end_ m_map) then (StdMap.second m_map it, true)
  else (value_default, false).

Definition lower_bound_key (m_map : map_t) (k : Key) : (Key * Value) * bool :=
  let it := StdMap.lower_bound m_map k in
  if negb (it =? StdMap.end_ m_map) then
    ((StdMap.first m_map it, StdMap.second m_map it), true)
  else ((key_default, value_default), false).

(** [m_map.empty()] *)
Definition empty (m_map : map_t) : bool :=
  StdMap.begin m_map =? StdMap.end_ m_map.

(** The loop of [getKeyList]: [push_back] of the key at [it], then [it++]. *)
Fixpoint getKeyList_loop (fuel : nat) (m_map : map_t) (it : StdMap.iterator)
    (keyList : list Key) : option (list Key) :=
  match fuel with
  | 0 => None
  | S fuel' =>
      if it =? StdMap.end_ m_map then Some keyList
      else
        getKeyList_loop fuel' m_map (S it) (keyList ++ [StdMap.first m_map it])
  end.

Definition getKeyList_iter (m_map : map_t) : option (list Key) :=
  getKeyList_loop (S (length m_map)) m_map (StdMap.begin m_map) [].

Definition perform {St : Type} (m_map : map_t) (k : Key)
    (f : option (callback St)) (s : St) : map_t * St * bool :=
  let it := StdMap.find m_map k in
  match it =? StdMap.end_ m_map, f with
  | false, Some fn =>
      let '(b, v', s') := fn k (StdMap.second m_map it) s in
      (StdMap.assign_second m_map it v', s', b)
  | _, _ => (m_map, s, false)
  end.

(** A [const] method: the map is not part of the result. *)
Definition perform_ro {St : Type} (m_map : map_t) (k : Key)
    (f : option (callback_ro St)) (s : St) : St * bool :=
  let it := StdMap.find m_map k in
  match it =? StdMap.end_ m_map, f with
  | false, Some fn =>
      let '(b, s') := fn k (StdMap.second m_map it) s in (s', b)
  | _, _ => (s, false)
  end.

(** [m_map.clear()] *)
Definition clear (m_map : map_t) : map_t := [].

(** The loop of [for_each_ro]. *)
Fixpoint for_each_ro_loop {St : Type} (fuel : nat) (f : callback_ro St)
    (m_map : map_t) (it : StdMap.iterator) (numSuccess : nat) (s : St)
  : option (St * nat) :=
  match fuel with
  | 0 => None
  | S fuel' =>
      if it =? StdMap.end_ m_map then Some (s, numSuccess)
      else
        let '(b, s') :=
          f (StdMap.first m_map it) (StdMap.second m_map it) s in
        for_each_ro_loop fuel' f m_map (S it)
          (if b then S numSuccess else numSuccess) s'
  end.

Definition for_each_ro {St : Type} (f : callback_ro St) (m_map : map_t)
    (s : St) : option (St * nat) :=
  for_each_ro_loop (S (length m_map)) f m_map (StdMap.begin m_map) 0 s.

(** The loop of [for_each]. *)
Fixpoint for_each_loop {St : Type} (fuel : nat) (f : callback St)
    (m_map : map_t) (it : StdMap.iterator) (numSuccess : nat) (s : St)
  : option (map_t * St * nat) :=
  match fuel with
  | 0 => None
  | S fuel' =>
      if it =? StdMap.end_ m_map then Some (m_map, s, numSuccess)
      else
        let '(b, v', s') :=
          f (StdMap.first m_map it) (StdMap.second m_map it) s in
        let m1 := StdMap.assign_second m_map it v' in
        for_each_loop fuel' f m1 (S it)
          (if b then S numSuccess else numSuccess) s'
  end.

Definition for_each {St : Type} (f : callback St) (m_map : map_t) (s : St)
  : option (map_t * St * nat) :=
  for_each_loop (S (length m_map)) f m_map (StdMap.begin m_map) 0 s.

(** One pass over the entries in iteration order, calling [f] once on each
    and counting the calls that answer [true]; the loops of [for_each] and
    [for_each_ro] are compared with these passes below. *)
Fixpoint for_each_pass {St : Type} (f : callback St) (entries : map_t)
    (s : St) : map_t * St * nat :=
  match entries with
  | [] => ([], s, 0)
  | (k, v) :: rest =>
      let '(b, v', s1) := f k v s in
      let '(done, s2, n) := for_each_pass f rest s1 in
      ((k, v') :: done, s2, if b then S n else n)
  end.

Fixpoint for_each_ro_pass {St : Type} (f : callback_ro St) (entries : map_t)
    (s : St) : St * nat :=
  match entries with
  | [] => (s, 0)
  | (k, v) :: rest =>
      let '(b, s1) := f k v s in
      let '(s2, n) := for_each_ro_pass f rest s1 in
      (s2, if b then S n else n)
  end.

(** A read-only callable that also records the keys it is called on. *)
Definition logged_ro {St : Type} (f : callback_ro St)
  : callback_ro (list Key * St) :=
  fun k v ls =>
    let '(b, s') := f k v (snd ls) in
    (b, (fst ls ++ [k], s')).

(** A read-only callable that only inspects the entry. *)
Definition predicate_ro (p : Key -> Value -> bool) : callback_ro unit :=
  fun k v s => (p k v, s).

End TSMap.
End TSMap.

Arguments TSMap.callback : clear implicits.
Arguments TSMap.callback_ro : clear implicits.

(** ** [acl::shared_mutex]

    The header declares the lock ([m_read], [m_mutex], [readers] and the six
    operations); the bodies of the operations are defined in another
    translation unit. *)
Module SharedMutex.

Definition thread : Type := nat.

(** Modelled from the spec: the bodies of [shared_mutex::lock], [try_lock],
    [unlock], [lock_shared], [try_lock_shared] and [unlock_shared] are
    missing.  The state is the one the specification gives: the count of
    active shared holders, the flag of an active exclusive holder, and the
    gate, which is closed to new shared acquisitions while a writer is
    pending or holding; the gate is kept as the list of the writers that
    are blocked in [lock()].  The readers blocked in [lock_shared()] are
    recorded too. *)
Record state : Type := {
  shared_count : nat;
  writer_active : bool;
  writers_pending : list thread;
  readers_pending : list thread
}.

Definition init : state :=
  {| shared_count := 0; writer_active := false;
     writers_pending := []; readers_pending := [] |}.

(** What a thread does to the lock.  A blocking operation is the call, which
    leaves the thread pending, followed by the acquisition, which happens
    once the operation no longer has to block. *)
Inductive event : Type :=
| LockCall (t : thread)
| LockAcquire (t : thread)
| TryLock (t : thread) (acquired : bool)
| Unlock (t : thread)
| LockSharedCall (t : thread)
| LockSharedAcquire (t : thread)
| TryLockShared (t : thread) (acquired : bool)
| UnlockShared (t : thread).

Definition mem (t : thread) (l : list thread) : bool := existsb (Nat.eqb t) l.

Definition remove (t : thread) (l : list thread) : list thread :=
  filter (fun t' => negb (Nat.eqb t t')) l.

(** "blocks until no shared or exclusive holder remains" *)
Definition exclusive_free (s : state) : bool :=
  (shared_count s =? 0) && negb (writer_active s).

(** "blocks while an exclusive holder is active or a writer is pending" *)
Definition shared_free (s : state) : bool :=
  negb (writer_active s) &&
  match writers_pending s with [] => true | _ :: _ => false end.

(** Modelled from the spec: one operation of the lock, following the
    description of each operation in the specification; [None] when the
    event cannot happen in the state (the acquisition is still blocked, the
    try-variant would answer otherwise, or the caller breaks the contract of
    unlocking only what it holds). *)
Definition step (s : state) (e : event) : option state :=
  match e with
  | LockCall t =>
      if mem t (writers_pending s) then None
      else Some {| shared_count := shared_count s;
                   writer_active := writer_active s;
                   writers_pending := writers_pending s ++ [t];
                   readers_pending := readers_pending s |}
  | LockAcquire t =>
      if mem t (writers_pending s) && exclusive_free s then
        Some {| shared_count := shared_count s;
                writer_active := true;
                writers_pending := remove t (writers_pending s);
                readers_pending := readers_pending s |}
      else None
  | TryLock t acquired =>
      if Bool.eqb acquired (exclusive_free s) then
        Some {| shared_count := shared_count s;
                writer_active := writer_active s || acquired;
                writers_pending := writers_pending s;
                readers_pending := readers_pending s |}
      else None
  | Unlock t =>
      if writer_active s then
        Some {| shared_count := shared_count s;
                writer_active := false;
                writers_pending := writers_pending s;
                readers_pending := readers_pending s |}
      else None
  | LockSharedCall t =>
      if mem t (readers_pending s) then None
      else Some {| shared_count := shared_count s;
                   writer_active := writer_active s;
                   writers_pending := writers_pending s;
                   readers_pending := readers_pending s ++ [t] |}
  | LockSharedAcquire t =>
      if mem t (readers_pending s) && shared_free s then
        Some {| shared_count := S (shared_count s);
                writer_active := writer_active s;
                writers_pending := writers_pending s;
                readers_pending := remove t (readers_pending s) |}
      else None
  | TryLockShared t acquired =>
      if Bool.eqb acquired (shared_free s) then
        Some {| shared_count :=
                  if acquired then S (shared_count s) else shared_count s;
                writer_active := writer_active s;
                writers_pending := writers_pending s;
                readers_pending := readers_pending s |}
      else None
  | UnlockShared t =>
      match shared_count s with
      | 0 => None
      | S n =>
          Some {| shared_count := n;
                  writer_active := writer_active s;
                  writers_pending := writers_pending s;
                  readers_pending := readers_pending s |}
      end
  end.

(** An execution: the events applied one after the other. *)
Fixpoint run (s : state) (tr : list event) : option state :=
  match tr with
  | [] => Some s
  | e :: tr' =>
      match step s e with
      | Some s' => run s' tr'
      | None => None
      end
  end.

(** A shared acquisition that succeeds. *)
Definition shared_acquisition (e : event) : bool :=
  match e with
  | LockSharedAcquire _ => true
  | TryLockShared _ acquired => acquired
  | _ => false
  end.

(** The arrival of a writer: a call of [lock()] or a successful [try_lock()]. *)
Definition writer_arrival (e : event) : bool :=
  match e with
  | LockCall _ => true
  | TryLock _ acquired => acquired
  | _ => false
  end.

(** A holder releases, or a pending writer is let in. *)
Definition hand_off (e : event) : bool :=
  match e with
  | Unlock _ | UnlockShared _ | LockAcquire _ => true
  | _ => false
  end.

Definition is_acquire_of (w : thread) (e : event) : bool :=
  match e with
  | LockAcquire t => Nat.eqb t w
  | _ => false
  end.

(** What stands between a pending writer and the lock: the shared holders,
    the exclusive holder, and the pending writers, each of which has to
    acquire and to release. *)
Definition backlog (s : state) : nat :=
  shared_count s + (if writer_active s then 1 else 0)
  + 2 * length (writers_pending s).

End SharedMutex.

(** ** [acl::shared_lock] *)
Module SharedLock.

(** *** The special member functions of the class

    Whether a guard can be copied or moved is decided by the declarations of
    the class and by the rules of the language for the members that a class
    does not declare. *)
Inductive special_member : Type :=
| CopyConstructor
| MoveConstructor
| CopyAssignment
| MoveAssignment
| Destructor.

Inductive declaration : Type :=
| Provided   (* declared in the class, defined in the translation unit *)
| Deleted.   (* declared [= delete] *)

Record class_decl : Type := {
  user_declared : special_member -> option declaration;
  (* what the non-static data members admit *)
  members_copy_constructible : bool;
  members_move_constructible : bool;
  members_copy_assignable : bool;
  members_move_assignable : bool
}.

Definition declares (c : class_decl) (m : special_member) : bool :=
  match user_declared c m with Some _ => true | None => false end.

(** [shared_lock] as the header declares it: the copy constructor is
    deleted, the destructor is declared, and no other special member is.
    The members are a [shared_mutex*] and a [std::atomic_bool]; the latter
    can be neither copied nor moved. *)
Definition shared_lock_class : class_decl :=
  {| user_declared := fun m =>
       match m with
       | CopyConstructor => Some Deleted
       | Destructor => Some Provided
       | MoveConstructor | CopyAssignment | MoveAssignment => None
       end;
     members_copy_constructible := false;
     members_move_constructible := false;
     members_copy_assignable := false;
     members_move_assignable := false |}.

(** [T b(a)]: the declared copy constructor when there is one; otherwise the
    implicit one, which is deleted when the class declares a move operation
    or a member cannot be copied. *)
Definition copy_constructible (c : class_decl) : bool :=
  match user_declared c CopyConstructor with
  | Some Provided => true
  | Some Deleted => false
  | None =>
      negb (declares c MoveConstructor || declares c MoveAssignment)
      && members_copy_constructible c
  end.

(** The implicit move constructor is declared only when the class declares
    no copy operation, no move assignment and no destructor. *)
Definition implicit_move_constructor (c : class_decl) : bool :=
  negb (declares c CopyConstructor || declares c CopyAssignment
        || declares c MoveAssignment || declares c Destructor).

(** [T b(std::move(a))]: the declared move constructor when there is one;
    otherwise the implicit one when it is declared and not deleted;
    otherwise the rvalue binds to the parameter of the copy constructor. *)
Definition move_constructible (c : class_decl) : bool :=
  match user_declared c MoveConstructor with
  | Some Provided => true
  | Some Deleted => false
  | None =>
      if implicit_move_constructor c && members_move_constructible c then true
      else copy_constructible c
  end.

Definition copy_assignable (c : class_decl) : bool :=
  match user_declared c CopyAssignment with
  | Some Provided => true
  | Some Deleted => false
  | None =>
      negb (declares c MoveConstructor || declares c MoveAssignment)
      && members_copy_assignable c
  end.

Definition implicit_move_assignment (c : class_decl) : bool :=
  negb (declares c CopyConstructor || declares c CopyAssignment
        || declares c MoveConstructor || declares c Destructor).

Definition move_assignable (c : class_decl) : bool :=
  match user_declared c MoveAssignment with
  | Some Provided => true
  | Some Deleted => false
  | None =>
      if implicit_move_assignment c && members_move_assignable c then true
      else copy_assignable c
  end.

(** *** The guard and its operations *)

(** The fields of the class; [m_mutex] points to the lock, whose state is
    passed along, and [holder] is the thread the guard lives in. *)
Record guard : Type := {
  holder : SharedMutex.thread;
  owns : bool
}.

Inductive policy : Type :=
| Immediate       (* shared_lock(m) *)
| TryToLock       (* shared_lock(m, std::try_to_lock) *)
| DeferLock       (* shared_lock(m, std::defer_lock) *)
| AdoptLock.      (* shared_lock(m, std::adopt_lock) *)

(** Modelled from the spec: the body of [shared_lock::lock] is missing;
    it acquires the lock in shared mode, blocking, and then owns it. *)
Definition lock (g : guard) (s : SharedMutex.state)
  : option (guard * SharedMutex.state) :=
  match SharedMutex.run s [SharedMutex.LockSharedCall (holder g);
                           SharedMutex.LockSharedAcquire (holder g)] with
  | Some s' => Some ({| holder := holder g; owns := true |}, s')
  | None => None
  end.

(** Modelled from the spec: the body of [shared_lock::try_lock] is missing;
    it tries to acquire in shared mode and owns the lock when that worked. *)
Definition try_lock (g : guard) (s : SharedMutex.state)
  : option (guard * SharedMutex.state * bool) :=
  let acquired := SharedMutex.shared_free s in
  match SharedMutex.step s (SharedMutex.TryLockShared (holder g) acquired) with
  | Some s' => Some ({| holder := holder g; owns := acquired |}, s', acquired)
  | None => None
  end.

(** Modelled from the spec: the body of [shared_lock::unlock] is missing;
    it releases the shared hold and no longer owns the lock. *)
Definition unlock (g : guard) (s : SharedMutex.state)
  : option (guard * SharedMutex.state) :=
  match SharedMutex.step s (SharedMutex.UnlockShared (holder g)) with
  | Some s' => Some ({| holder := holder g; owns := false |}, s')
  | None => None
  end.

Definition owns_lock (g : guard) : bool := owns g.

(** Modelled from the spec: the bodies of the four constructors are
    missing; they are the four construction policies of the specification:
    acquire at once, try to acquire, construct without acquiring, and adopt
    a hold the caller already has. *)
Definition construct (t : SharedMutex.thread) (p : policy)
    (s : SharedMutex.state) : option (guard * SharedMutex.state) :=
  let g := {| holder := t; owns := false |} in
  match p with
  | Immediate => lock g s
  | TryToLock =>
      match try_lock g s with
      | Some (g', s', _) => Some (g', s')
      | None => None
      end
  | DeferLock => Some (g, s)
  | AdoptLock => Some ({| holder := t; owns := true |}, s)
  end.

(** Modelled from the spec: the body of [shared_lock::~shared_lock] is
    missing; the guard releases the lock on destruction if it owns it. *)
Definition destroy (g : guard) (s : SharedMutex.state)
  : option SharedMutex.state :=
  if owns g then SharedMutex.step s (SharedMutex.UnlockShared (holder g))
  else Some s.

End SharedLock.

(** ** The classes that hold the lock

    [shared_mutex] deletes its copy constructor and its copy assignment and
    declares a (virtual) destructor; its members are two [std::mutex] and a
    [std::atomic_int], none of which can be copied or moved.  [TSMap]
    declares its destructor only; its members are the [std::map], which can
    be copied and moved, and the [shared_mutex]. *)
Module Classes.

Definition shared_mutex_class : SharedLock.class_decl :=
  {| SharedLock.user_declared := fun m =>
       match m with
       | SharedLock.CopyConstructor => Some SharedLock.Deleted
       | SharedLock.CopyAssignment => Some SharedLock.Deleted
       | SharedLock.Destructor => Some SharedLock.Provided
       | SharedLock.MoveConstructor | SharedLock.MoveAssignment => None
       end;
     SharedLock.members_copy_constructible := false;
     SharedLock.members_move_constructible := false;
     SharedLock.members_copy_assignable := false;
     SharedLock.members_move_assignable := false |}.

Definition TSMap_class : SharedLock.class_decl :=
  {| SharedLock.user_declared := fun m =>
       match m with
       | SharedLock.Destructor => Some SharedLock.Provided
       | _ => None
       end;
     SharedLock.members_copy_constructible :=
       true && SharedLock.copy_constructible shared_mutex_class;
     SharedLock.members_move_constructible :=
       true && SharedLock.move_constructible shared_mutex_class;
     SharedLock.members_copy_assignable :=
       true && SharedLock.copy_assignable shared_mutex_class;
     SharedLock.members_move_assignable :=
       true && SharedLock.move_assignable shared_mutex_class |}.

End Classes.

(** ** The maps of the examples *)

Definition infimum_example : StdMap.t Z string :=
  [(1%Z, "a"%string); (5%Z, "b"%string); (10%Z, "c"%string)].

Definition delete_if_example : StdMap.t Z unit :=
  [(1%Z, tt); (2%Z, tt); (3%Z, tt); (4%Z, tt); (5%Z, tt)].

Definition even_key : Z -> unit -> bool := fun k _ => (k mod 2 =? 0)%Z.

Definition one_entry : StdMap.t Z Z := [(1%Z, 10%Z)].

(** A callable that refuses and writes [99] through its reference. *)
Definition veto_and_write : TSMap.callback Z Z unit :=
  fun _ _ s => (false, 99%Z, s).

(** A callable that refuses and leaves the value alone. *)
Definition veto : TSMap.callback Z Z unit :=
  fun _ v s => (false, v, s).

(** A read-only callable that tells whether the value is [10]. *)
Definition is_ten : TSMap.callback_ro Z Z unit :=
  fun _ v s => ((v =? 10)%Z, s).

(** * Facts about the container *)

#[export] Instance Z_KeyLaws : KeyLaws Z.
Proof.
  split; simpl; intros.
  - apply Z.ltb_irrefl.
  - apply Z.ltb_lt in H, H0. apply Z.ltb_lt. lia.
  - apply Z.ltb_ge in H, H0. lia.
  - apply Z.eqb_eq.
Qed.

#[export] Instance nat_KeyLaws : KeyLaws nat.
Proof.
  split; simpl; intros.
  - apply Nat.ltb_irrefl.
  - apply Nat.ltb_lt in H, H0. apply Nat.ltb_lt. lia.
  - apply Nat.ltb_ge in H, H0. lia.
  - apply Nat.eqb_eq.
Qed.

Section StdMapFacts.
Context {Key Value : Type} `{KeyType Key} `{ValueType Value} `{!KeyLaws Key}.

#[local] Abbreviation map_t := (StdMap.t Key Value).

Lemma key_lt_asym (a b : Key) : key_lt a b = true -> key_lt b a = false.
Proof.
  intros Hab. destruct (key_lt b a) eqn:Hba; [|reflexivity].
  rewrite <- (key_lt_irrefl a). symmetry. now apply key_lt_trans with b.
Qed.

Lemma key_lt_connex (a b : Key) :
  a <> b -> key_lt a b = false -> key_lt b a = true.
Proof.
  intros Hne Hab. destruct (key_lt b a) eqn:Hba; [reflexivity|].
  exfalso. apply Hne. now apply key_lt_total.
Qed.

Lemma key_eqb_refl (a : Key) : key_eqb a a = true.
Proof. now apply key_eqb_eq. Qed.

Lemma key_eqb_neq (a b : Key) : a <> b -> key_eqb a b = false.
Proof.
  intros Hne. destruct (key_eqb a b) eqn:E; [|reflexivity].
  now apply key_eqb_eq in E.
Qed.

(** The boolean invariant says that every entry is below all later ones. *)
Lemma ordered_cons (k : Key) (v : Value) (m : map_t) :
  StdMap.ordered ((k, v) :: m) = true <->
  StdMap.ordered m = true /\ (forall e, In e m -> key_lt k (fst e) = true).
Proof.
  revert k v. induction m as [|[k1 v1] m IH]; intros k v.
  - simpl. split; [intros _; split; [reflexivity | intros e []] | reflexivity].
  - change (StdMap.ordered ((k, v) :: (k1, v1) :: m))
      with (key_lt k k1 && StdMap.ordered ((k1, v1) :: m)).
    rewrite andb_true_iff. split.
    + intros [Hlt Hord]. split; [exact Hord|].
      intros e [<- | Hin]; [exact Hlt|].
      apply key_lt_trans with k1; [exact Hlt|].
      apply (proj1 (IH k1 v1) Hord). exact Hin.
    + intros [Hord Hall]. split; [|exact Hord].
      apply (Hall (k1, v1)). now left.
Qed.

Lemma ordered_app (l1 l2 : map_t) :
  StdMap.ordered (l1 ++ l2) = true <->
  StdMap.ordered l1 = true /\ StdMap.ordered l2 = true /\
  (forall a b, In a l1 -> In b l2 -> key_lt (fst a) (fst b) = true).
Proof.
  induction l1 as [|[k v] l1 IH].
  - simpl. split; [intros Hord; repeat split; [exact Hord | intros a b []]
                  | now intros (_ & Hord & _)].
  - rewrite <- app_comm_cons, !ordered_cons, IH. split.
    + intros [(H1 & H2 & H12) Hk]. repeat split; trivial.
      * intros e He. apply Hk, in_or_app. now left.
      * intros a b [<- | Ha] Hb; [|now apply H12].
        apply Hk, in_or_app. now right.
    + intros ([H1 Hk] & H2 & H12). repeat split; trivial.
      * intros a b Ha Hb. apply H12; [now right | exact Hb].
      * intros e He. apply in_app_or in He as [He | He]; [now apply Hk|].
        apply (H12 (k, v) e); [now left | exact He].
Qed.

(** In an ordered map a key has one value. *)
Lemma ordered_functional (m : map_t) (k : Key) (v1 v2 : Value) :
  StdMap.ordered m = true -> In (k, v1) m -> In (k, v2) m -> v1 = v2.
Proof.
  induction m as [|[k0 v0] m IH]; intros Hord H1 H2; [destruct H1|].
  apply ordered_cons in Hord as [Hord Hk].
  destruct H1 as [E1 | H1], H2 as [E2 | H2].
  - congruence.
  - inversion E1; subst. apply Hk in H2. simpl in H2.
    now rewrite key_lt_irrefl in H2.
  - inversion E2; subst. apply Hk in H1. simpl in H1.
    now rewrite key_lt_irrefl in H1.
  - now apply IH.
Qed.

(** Where [lower_bound] stops: the entries before it are below [k], and the
    rest either starts with the entry of [k] or lies above [k]. *)
Lemma lower_bound_locate (m : map_t) (k : Key) :
  StdMap.ordered m = true ->
  exists pre post,
    m = pre ++ post /\
    StdMap.lower_bound m k = length pre /\
    (forall e, In e pre -> key_lt (fst e) k = true) /\
    ((exists v post', post = (k, v) :: post' /\
                      forall e, In e post' -> key_lt k (fst e) = true)
     \/ (forall e, In e post -> key_lt k (fst e) = true)).
Proof.
  induction m as [|[k0 v0] m IH]; intros Hord.
  - exists [], []. repeat split; try (intros e []). right. intros e [].
  - pose proof Hord as Hord0.
    apply ordered_cons in Hord as [Hord Hk]. simpl.
    destruct (key_lt k0 k) eqn:Hlt.
    + destruct (IH Hord) as (pre & post & -> & Hlb & Hpre & Hpost).
      exists ((k0, v0) :: pre), post. repeat split.
      * simpl. now rewrite Hlb.
      * intros e [<- | He]; [exact Hlt | now apply Hpre].
      * exact Hpost.
    + exists [], ((k0, v0) :: m). repeat split; try (intros e []).
      destruct (key_eqb k0 k) eqn:Heq.
      * apply key_eqb_eq in Heq. subst k0. left. now exists v0, m.
      * right. intros e [<- | He]; simpl.
        -- apply key_lt_connex; [|exact Hlt].
           intros ->. now rewrite key_eqb_refl in Heq.
        -- apply key_lt_trans with k0; [|now apply Hk].
           apply key_lt_connex; [|exact Hlt].
           intros ->. now rewrite key_eqb_refl in Heq.
Qed.

Lemma nth_error_at (pre post : map_t) :
  nth_error (pre ++ post) (length pre) = nth_error post 0.
Proof. rewrite nth_error_app2, Nat.sub_diag by lia. reflexivity. Qed.

Lemma firstn_at (pre post : map_t) : firstn (length pre) (pre ++ post) = pre.
Proof.
  rewrite firstn_app, Nat.sub_diag, firstn_all. simpl. apply app_nil_r.
Qed.

Lemma skipn_at (pre post : map_t) : skipn (length pre) (pre ++ post) = post.
Proof.
  rewrite skipn_app, Nat.sub_diag, skipn_all. reflexivity.
Qed.

Lemma skipn_past (pre post : map_t) (e : Key * Value) :
  skipn (S (length pre)) (pre ++ e :: post) = post.
Proof.
  induction pre as [|a pre IH]; [reflexivity | exact IH].
Qed.

Lemma nth_at (pre post : map_t) (e d : Key * Value) :
  nth (length pre) (pre ++ e :: post) d = e.
Proof. rewrite app_nth2, Nat.sub_diag by lia. reflexivity. Qed.

Lemma below_not_key {k : Key} {l : map_t} {e : Key * Value} :
  StdMap.below k l -> In e l -> fst e <> k.
Proof.
  intros Hb He Heq. apply Hb in He. rewrite Heq in He.
  now rewrite key_lt_irrefl in He.
Qed.

Lemma above_not_key {k : Key} {l : map_t} {e : Key * Value} :
  StdMap.above k l -> In e l -> fst e <> k.
Proof.
  intros Ha He Heq. apply Ha in He. rewrite Heq in He.
  now rewrite key_lt_irrefl in He.
Qed.

Lemma lower_bound_app (k : Key) (pre post : map_t) :
  StdMap.below k pre ->
  StdMap.lower_bound (pre ++ post) k = length pre + StdMap.lower_bound post k.
Proof.
  induction pre as [|[k0 v0] pre IH]; intros Hb; [reflexivity|].
  simpl. pose proof (Hb (k0, v0) (or_introl eq_refl)) as Hlt.
  simpl in Hlt. rewrite Hlt.
  rewrite IH; [reflexivity|]. intros e He. apply Hb. now right.
Qed.

Lemma lower_bound_above (k : Key) (post : map_t) :
  StdMap.above k post -> StdMap.lower_bound post k = 0.
Proof.
  destruct post as [|[k1 v1] post]; intros Ha; [reflexivity|].
  simpl. rewrite key_lt_asym; [reflexivity|].
  apply (Ha (k1, v1)). now left.
Qed.

Lemma lower_bound_hit (k : Key) (pre post : map_t) (v : Value) :
  StdMap.below k pre ->
  StdMap.lower_bound (pre ++ (k, v) :: post) k = length pre.
Proof.
  intros Hb. rewrite lower_bound_app by exact Hb.
  simpl. rewrite key_lt_irrefl. lia.
Qed.

Lemma lower_bound_miss (k : Key) (pre post : map_t) :
  StdMap.below k pre -> StdMap.above k post ->
  StdMap.lower_bound (pre ++ post) k = length pre.
Proof.
  intros Hb Ha. rewrite lower_bound_app, lower_bound_above by trivial. lia.
Qed.

(** The operations of the container at a located key. *)

Lemma find_hit (k : Key) (pre post : map_t) (v : Value) :
  StdMap.below k pre -> StdMap.find (pre ++ (k, v) :: post) k = length pre.
Proof.
  intros Hb. unfold StdMap.find.
  rewrite lower_bound_hit, nth_error_at by exact Hb. simpl.
  now rewrite key_lt_irrefl.
Qed.

Lemma find_miss (k : Key) (pre post : map_t) :
  StdMap.below k pre -> StdMap.above k post ->
  StdMap.find (pre ++ post) k = StdMap.end_ (pre ++ post).
Proof.
  intros Hb Ha. unfold StdMap.find.
  rewrite lower_bound_miss, nth_error_at by trivial.
  destruct post as [|[k1 v1] post]; [reflexivity|]. simpl.
  pose proof (Ha (k1, v1) (or_introl eq_refl)) as Hlt. simpl in Hlt.
  now rewrite Hlt.
Qed.

Lemma emplace_hit (k : Key) (pre post : map_t) (v0 v : Value) :
  StdMap.below k pre ->
  StdMap.emplace (pre ++ (k, v0) :: post) k v
  = (pre ++ (k, v0) :: post, (length pre, false)).
Proof.
  intros Hb. unfold StdMap.emplace.
  rewrite lower_bound_hit, nth_error_at by exact Hb. simpl.
  now rewrite key_lt_irrefl.
Qed.

Lemma emplace_miss (k : Key) (pre post : map_t) (v : Value) :
  StdMap.below k pre -> StdMap.above k post ->
  StdMap.emplace (pre ++ post) k v
  = (pre ++ (k, v) :: post, (length pre, true)).
Proof.
  intros Hb Ha. unfold StdMap.emplace, StdMap.insert_at.
  rewrite lower_bound_miss, nth_error_at, firstn_at, skipn_at by trivial.
  destruct post as [|[k1 v1] post]; [reflexivity|]. simpl.
  pose proof (Ha (k1, v1) (or_introl eq_refl)) as Hlt. simpl in Hlt.
  now rewrite Hlt.
Qed.

Lemma erase_at_located (pre post : map_t) (e : Key * Value) :
  StdMap.erase_at (pre ++ e :: post) (length pre) = pre ++ post.
Proof.
  unfold StdMap.erase_at. now rewrite firstn_at, skipn_past.
Qed.

Lemma erase_hit (k : Key) (pre post : map_t) (v : Value) :
  StdMap.below k pre ->
  StdMap.erase (pre ++ (k, v) :: post) k = (pre ++ post, 1).
Proof.
  intros Hb. unfold StdMap.erase, StdMap.end_.
  rewrite find_hit by exact Hb.
  replace (length pre =? length (pre ++ (k, v) :: post)) with false.
  - now rewrite erase_at_located.
  - symmetry. apply Nat.eqb_neq. rewrite length_app. simpl. lia.
Qed.

Lemma erase_miss (k : Key) (pre post : map_t) :
  StdMap.below k pre -> StdMap.above k post ->
  StdMap.erase (pre ++ post) k = (pre ++ post, 0).
Proof.
  intros Hb Ha. unfold StdMap.erase.
  now rewrite find_miss, Nat.eqb_refl by trivial.
Qed.

Lemma assign_second_located (pre post : map_t) (k : Key) (v0 v : Value) :
  StdMap.assign_second (pre ++ (k, v0) :: post) (length pre) v
  = pre ++ (k, v) :: post.
Proof.
  unfold StdMap.assign_second.
  now rewrite nth_error_at, firstn_at, skipn_past.
Qed.

Lemma index_assign_hit (k : Key) (pre post : map_t) (v0 v : Value) :
  StdMap.below k pre ->
  StdMap.index_assign (pre ++ (k, v0) :: post) k v = pre ++ (k, v) :: post.
Proof.
  intros Hb. unfold StdMap.index_assign.
  rewrite emplace_hit by exact Hb. apply assign_second_located.
Qed.

Lemma second_located (pre post : map_t) (k : Key) (v : Value) :
  StdMap.second (pre ++ (k, v) :: post) (length pre) = v.
Proof. unfold StdMap.second, StdMap.deref. now rewrite nth_at. Qed.

Lemma first_located (pre post : map_t) (k : Key) (v : Value) :
  StdMap.first (pre ++ (k, v) :: post) (length pre) = k.
Proof. unfold StdMap.first, StdMap.deref. now rewrite nth_at. Qed.

Lemma length_located_neq (pre post : map_t) (e : Key * Value) :
  (length pre =? StdMap.end_ (pre ++ e :: post)) = false.
Proof.
  apply Nat.eqb_neq. unfold StdMap.end_. rewrite length_app. simpl. lia.
Qed.

(** The invariant at a located key. *)

Lemma ordered_located (k : Key) (pre post : map_t) (v : Value) :
  StdMap.ordered (pre ++ (k, v) :: post) = true <->
  StdMap.ordered (pre ++ post) = true /\
  StdMap.below k pre /\ StdMap.above k post.
Proof.
  rewrite !ordered_app, ordered_cons. unfold StdMap.below, StdMap.above. split.
  - intros (Hpre & [Hpost Hk] & Hcross). repeat split; trivial.
    + intros a b Ha Hb. apply Hcross; [exact Ha | now right].
    + intros e He. apply (Hcross e (k, v)); [exact He | now left].
  - intros ((Hpre & Hpost & Hcross) & Hb & Ha). repeat split; trivial.
    intros a b Hina [<- | Hinb]; [now apply Hb | now apply Hcross].
Qed.

Lemma ordered_reassign (k : Key) (pre post : map_t) (v v' : Value) :
  StdMap.ordered (pre ++ (k, v) :: post) = true ->
  StdMap.ordered (pre ++ (k, v') :: post) = true.
Proof. rewrite !ordered_located. trivial. Qed.

Lemma ordered_erased (pre post : map_t) (e : Key * Value) :
  StdMap.ordered (pre ++ e :: post) = true ->
  StdMap.ordered (pre ++ post) = true.
Proof. destruct e as [k v]. rewrite ordered_located. now intros []. Qed.

End StdMapFacts.

(** * The methods of [TSMap] at a located key *)

Section TSMapFacts.
Context {Key Value : Type} `{KeyType Key} `{ValueType Value} `{!KeyLaws Key}.

#[local] Abbreviation tsmap := (StdMap.t Key Value).

Lemma TSMap_find_hit (k : Key) (pre post : tsmap) (v : Value) :
  StdMap.below k pre ->
  TSMap.find (pre ++ (k, v) :: post) k = (v, true).
Proof.
  intros Hb. unfold TSMap.find.
  now rewrite find_hit, length_located_neq, second_located.
Qed.

Lemma TSMap_find_miss (k : Key) (pre post : tsmap) :
  StdMap.below k pre -> StdMap.above k post ->
  TSMap.find (pre ++ post) k = (value_default, false).
Proof.
  intros Hb Ha. unfold TSMap.find.
  now rewrite find_miss, Nat.eqb_refl.
Qed.

Lemma TSMap_emplace_hit (k : Key) (pre post : tsmap) (v0 v : Value)
    (force : bool) :
  StdMap.below k pre -> StdMap.above k post ->
  TSMap.emplace (pre ++ (k, v0) :: post) k v force
  = (if force then pre ++ (k, v) :: post else pre ++ (k, v0) :: post, force).
Proof.
  intros Hb Ha. unfold TSMap.emplace.
  rewrite find_hit, length_located_neq by exact Hb.
  destruct force; simpl; [|reflexivity].
  now rewrite erase_hit, emplace_miss.
Qed.

Lemma TSMap_emplace_miss (k : Key) (pre post : tsmap) (v : Value)
    (force : bool) :
  StdMap.below k pre -> StdMap.above k post ->
  TSMap.emplace (pre ++ post) k v force = (pre ++ (k, v) :: post, true).
Proof.
  intros Hb Ha. unfold TSMap.emplace.
  rewrite find_miss, Nat.eqb_refl, andb_false_r by trivial.
  now rewrite erase_miss, emplace_miss.
Qed.

Lemma TSMap_replace_hit (k : Key) (pre post : tsmap) (v0 v : Value)
    (force : bool) :
  StdMap.below k pre ->
  TSMap.replace (pre ++ (k, v0) :: post) k v force
  = (if force then pre ++ (k, v) :: post else pre ++ (k, v0) :: post,
     (v0, false)).
Proof.
  intros Hb. unfold TSMap.replace.
  rewrite emplace_hit by exact Hb. simpl.
  rewrite second_located. destruct force; [|reflexivity].
  now rewrite index_assign_hit.
Qed.

Lemma TSMap_replace_miss (k : Key) (pre post : tsmap) (v : Value)
    (force : bool) :
  StdMap.below k pre -> StdMap.above k post ->
  TSMap.replace (pre ++ post) k v force = (pre ++ (k, v) :: post, (v, true)).
Proof.
  intros Hb Ha. unfold TSMap.replace. now rewrite emplace_miss.
Qed.

Lemma TSMap_createInPlace_hit {Args : Type} (construct : Args -> Value)
    (k : Key) (pre post : tsmap) (v0 : Value) (args : Args) :
  StdMap.below k pre ->
  TSMap.createInPlace construct (pre ++ (k, v0) :: post) k args
  = (pre ++ (k, v0) :: post, false).
Proof.
  intros Hb. unfold TSMap.createInPlace. now rewrite emplace_hit.
Qed.

Lemma TSMap_erase_hit {St : Type} (k : Key) (pre post : tsmap) (v0 : Value)
    (f : option (TSMap.callback Key Value St)) (s : St) :
  StdMap.below k pre ->
  TSMap.erase (pre ++ (k, v0) :: post) k f s
  = match f with
    | None => (pre ++ post, s, true)
    | Some fn =>
        let '(b, v', s') := fn k v0 s in
        if b then (pre ++ post, s', true)
        else (pre ++ (k, v') :: post, s', false)
    end.
Proof.
  intros Hb. unfold TSMap.erase.
  rewrite find_hit, length_located_neq by exact Hb.
  destruct f as [fn|].
  - rewrite second_located. destruct (fn k v0 s) as [[b v'] s'].
    rewrite assign_second_located. destruct b; [|reflexivity].
    now rewrite erase_hit.
  - now rewrite erase_hit.
Qed.

Lemma TSMap_erase_miss {St : Type} (k : Key) (pre post : tsmap)
    (f : option (TSMap.callback Key Value St)) (s : St) :
  StdMap.below k pre -> StdMap.above k post ->
  TSMap.erase (pre ++ post) k f s = (pre ++ post, s, false).
Proof.
  intros Hb Ha. unfold TSMap.erase.
  now rewrite find_miss, Nat.eqb_refl.
Qed.

Lemma locate (m : tsmap) (k : Key) :
  StdMap.ordered m = true ->
  (exists pre v post,
      m = pre ++ (k, v) :: post /\ StdMap.below k pre /\ StdMap.above k post)
  \/ (~ In k (StdMap.keys m) /\
      exists pre post,
        m = pre ++ post /\ StdMap.below k pre /\ StdMap.above k post).
Proof.
  intros Hord.
  destruct (lower_bound_locate m k Hord)
    as (pre & post & Hm & _ & Hpre & [(v0 & post' & -> & Hpost) | Hpost]).
  - left. now exists pre, v0, post'.
  - right. split; [|now exists pre, post].
    unfold StdMap.keys. rewrite Hm, map_app, in_app_iff, !in_map_iff.
    intros [(e & He & Hin) | (e & He & Hin)].
    + now apply (below_not_key Hpre Hin).
    + now apply (above_not_key Hpost Hin).
Qed.

Lemma in_located (pre post : tsmap) (e0 e : Key * Value) :
  In e (pre ++ e0 :: post) <-> e = e0 \/ In e (pre ++ post).
Proof. rewrite !in_app_iff. simpl. intuition congruence. Qed.

Lemma in_located_other (pre post : tsmap) (k : Key) (v v' : Value)
    (e : Key * Value) :
  fst e <> k ->
  In e (pre ++ (k, v) :: post) <-> In e (pre ++ (k, v') :: post).
Proof.
  intros Hne. rewrite !in_located.
  split; (intros [-> | Hin]; [now destruct Hne | now right]).
Qed.

Lemma in_located_erased (pre post : tsmap) (k : Key) (v : Value)
    (e : Key * Value) :
  StdMap.below k pre -> StdMap.above k post ->
  In e (pre ++ post) <-> In e (pre ++ (k, v) :: post) /\ fst e <> k.
Proof.
  intros Hb Ha. rewrite in_located. split.
  - intros Hin. split; [now right|].
    apply in_app_or in Hin as [Hin | Hin].
    + exact (below_not_key Hb Hin).
    + exact (above_not_key Ha Hin).
  - intros [[-> | Hin] Hne]; [now destruct Hne | exact Hin].
Qed.

Lemma located_unique {pre post : tsmap} {k : Key} {v v' : Value} :
  StdMap.below k pre -> StdMap.above k post ->
  In (k, v') (pre ++ (k, v) :: post) -> v' = v.
Proof.
  intros Hb Ha Hin. apply in_located in Hin as [Heq | Hin]; [congruence|].
  exfalso. apply in_app_or in Hin as [Hin | Hin].
  - now apply (below_not_key Hb Hin).
  - now apply (above_not_key Ha Hin).
Qed.

(** [split_at m k] splits the ordered map [m] around the place of [k]. *)
Ltac split_at m k :=
  let pre := fresh "pre" in
  let post := fresh "post" in
  let v0 := fresh "v0" in
  let Hb := fresh "Hbelow" in
  let Ha := fresh "Habove" in
  let Hnin := fresh "Habsent" in
  match goal with
  | Hord : StdMap.ordered m = true |- _ =>
      destruct (locate m k Hord)
        as [(pre & v0 & post & -> & Hb & Ha)
           | (Hnin & pre & post & -> & Hb & Ha)]
  end.

(** The invariant is kept by the writers. *)
Lemma ordered_inserted (k : Key) (pre post : tsmap) (v : Value) :
  StdMap.ordered (pre ++ post) = true ->
  StdMap.below k pre -> StdMap.above k post ->
  StdMap.ordered (pre ++ (k, v) :: post) = true.
Proof. intros. now apply ordered_located. Qed.

(** C8: for every ordered map and key [k], [find(k)] returns the stored
    value and [true] when [k] is present, and [Value{}] and [false] when
    [k] is absent; in the latter case [emplace(k, v, false)] inserts and
    [find(k)] then returns [(v, true)]. *)
Theorem find_returns_stored_value (m : tsmap) (k : Key) :
  StdMap.ordered m = true ->
  (forall v, In (k, v) m -> TSMap.find m k = (v, true)) /\
  (~ In k (StdMap.keys m) ->
   TSMap.find m k = (value_default, false) /\
   forall v, exists m',
       TSMap.emplace m k v false = (m', true) /\
       TSMap.find m' k = (v, true)).
Proof.
  intros Hord. split_at m k.
  - split.
    + intros v Hin. pose proof (located_unique Hbelow Habove Hin) as ->.
      now apply TSMap_find_hit.
    + intros Hnin. exfalso. apply Hnin. unfold StdMap.keys.
      rewrite map_app. apply in_or_app. right. now left.
  - split.
    + intros v Hin. exfalso. apply Habsent.
      unfold StdMap.keys. now apply (in_map fst) in Hin.
    + intros _. split; [now apply TSMap_find_miss|].
      intros v. exists (pre ++ (k, v) :: post). split.
      * now apply TSMap_emplace_miss.
      * now apply TSMap_find_hit.
Qed.

(** C5: when [k] is present with value [v1], [emplace(k, v2, false)]
    returns [false] and the map after the call is the map before it. *)
Theorem emplace_without_force_keeps_map (m : tsmap) (k : Key) (v1 v2 : Value) :
  StdMap.ordered m = true -> In (k, v1) m ->
  TSMap.emplace m k v2 false = (m, false) /\
  TSMap.find (fst (TSMap.emplace m k v2 false)) k = (v1, true).
Proof.
  intros Hord Hin. split_at m k.
  - pose proof (located_unique Hbelow Habove Hin) as ->.
    rewrite TSMap_emplace_hit by trivial. split; [reflexivity|].
    now apply TSMap_find_hit.
  - exfalso. apply Habsent. unfold StdMap.keys. now apply (in_map fst) in Hin.
Qed.

(** C10: when [k] is present, [createInPlace(k, args...)] returns [false]
    and the map after the call is the map before it, so the value stored
    for [k] is the one that was there. *)
Theorem createInPlace_present_keeps_map {Args : Type}
    (construct : Args -> Value) (m : tsmap) (k : Key) (v1 : Value)
    (args : Args) :
  StdMap.ordered m = true -> In (k, v1) m ->
  TSMap.createInPlace construct m k args = (m, false) /\
  TSMap.find (fst (TSMap.createInPlace construct m k args)) k = (v1, true).
Proof.
  intros Hord Hin. split_at m k.
  - pose proof (located_unique Hbelow Habove Hin) as ->.
    rewrite TSMap_createInPlace_hit by trivial. split; [reflexivity|].
    now apply TSMap_find_hit.
  - exfalso. apply Habsent. unfold StdMap.keys. now apply (in_map fst) in Hin.
Qed.

(** C4: for every ordered map and key [k], after [emplace(k, v1)] the call
    [emplace(k, v2, true)] returns [true] and leaves [v2] stored for [k];
    the map is still ordered and the entries of the other keys are those of
    the map before the two calls. *)
Theorem emplace_force_replaces (m : tsmap) (k : Key) (v1 v2 : Value) :
  StdMap.ordered m = true ->
  exists m2,
    TSMap.emplace (fst (TSMap.emplace m k v1 false)) k v2 true = (m2, true) /\
    TSMap.find m2 k = (v2, true) /\
    StdMap.ordered m2 = true /\
    (forall v, In (k, v) m2 -> v = v2) /\
    (forall e, fst e <> k -> (In e m2 <-> In e m)).
Proof.
  intros Hord. pose proof Hord as Hord0. split_at m k.
  - exists (pre ++ (k, v2) :: post).
    rewrite TSMap_emplace_hit by trivial. simpl.
    rewrite TSMap_emplace_hit by trivial.
    repeat split.
    + now apply TSMap_find_hit.
    + now apply (ordered_reassign k pre post v0).
    + intros v. now apply located_unique.
    + now apply in_located_other.
    + now apply in_located_other.
  - exists (pre ++ (k, v2) :: post).
    rewrite TSMap_emplace_miss by trivial. simpl.
    rewrite TSMap_emplace_hit by trivial.
    repeat split.
    + now apply TSMap_find_hit.
    + now apply ordered_inserted.
    + intros v. now apply located_unique.
    + intros Hin. apply in_located in Hin as [-> | Hin]; [|exact Hin].
      exfalso. auto.
    + intros Hin. apply in_located. now right.
Qed.

(** C1, as the code has it: for every ordered map, [replace(k, v, true)]
    on a present key overwrites the stored value with [v] and returns the
    value that was stored before together with [false]; on an absent key it
    inserts [v] and returns [(v, true)].  The other entries stay. *)
Theorem replace_force_returns_previous (m : tsmap) (k : Key) (v : Value) :
  StdMap.ordered m = true ->
  (forall old, In (k, old) m ->
     exists m',
       TSMap.replace m k v true = (m', (old, false)) /\
       TSMap.find m' k = (v, true) /\
       StdMap.ordered m' = true /\
       (forall e, fst e <> k -> (In e m' <-> In e m))) /\
  (~ In k (StdMap.keys m) ->
     exists m',
       TSMap.replace m k v true = (m', (v, true)) /\
       TSMap.find m' k = (v, true) /\
       StdMap.ordered m' = true /\
       (forall e, In e m' <-> e = (k, v) \/ In e m)).
Proof.
  intros Hord. pose proof Hord as Hord0. split_at m k.
  - split.
    + intros old Hin. pose proof (located_unique Hbelow Habove Hin) as ->.
      exists (pre ++ (k, v) :: post). rewrite TSMap_replace_hit by trivial.
      repeat split.
      * now apply TSMap_find_hit.
      * now apply (ordered_reassign k pre post v0).
      * now apply in_located_other.
      * now apply in_located_other.
    + intros Hnin. exfalso. apply Hnin. unfold StdMap.keys.
      rewrite map_app. apply in_or_app. right. now left.
  - split.
    + intros old Hin. exfalso. apply Habsent.
      unfold StdMap.keys. now apply (in_map fst) in Hin.
    + intros _. exists (pre ++ (k, v) :: post).
      rewrite TSMap_replace_miss by trivial. repeat split.
      * now apply TSMap_find_hit.
      * now apply ordered_inserted.
      * now apply in_located.
      * now apply in_located.
Qed.

Lemma keys_located (pre post : tsmap) (k : Key) (v v' : Value) :
  StdMap.keys (pre ++ (k, v) :: post) = StdMap.keys (pre ++ (k, v') :: post).
Proof. unfold StdMap.keys. now rewrite !map_app. Qed.

(** C7, as the code has it: [erase(k, fn)] removes the entry of [k] and
    returns [true] exactly when [k] is present and [fn] is unset or answers
    [true]; otherwise it returns [false] and removes nothing.  When [k] is
    absent the map is unchanged.  When [fn] answers [false] the keys and
    the entries of the other keys are unchanged, and the value of [k] is
    the one [fn] left behind its reference; the map is unchanged when [fn]
    left the value as it was. *)
Theorem erase_veto_keeps_entries {St : Type} (m : tsmap) (k : Key)
    (f : option (TSMap.callback Key Value St)) (s : St) :
  StdMap.ordered m = true ->
  (~ In k (StdMap.keys m) -> TSMap.erase m k f s = (m, s, false)) /\
  (forall v, In (k, v) m ->
     match f with
     | None =>
         exists m',
           TSMap.erase m k f s = (m', s, true) /\
           StdMap.ordered m' = true /\
           (forall e, In e m' <-> In e m /\ fst e <> k)
     | Some fn =>
         exists m',
           TSMap.erase m k f s
           = (m', snd (fn k v s), fst (fst (fn k v s))) /\
           StdMap.ordered m' = true /\
           if fst (fst (fn k v s)) then
             forall e, In e m' <-> In e m /\ fst e <> k
           else
             StdMap.keys m' = StdMap.keys m /\
             In (k, snd (fst (fn k v s))) m' /\
             (forall e, fst e <> k -> (In e m' <-> In e m)) /\
             (snd (fst (fn k v s)) = v -> m' = m)
     end).
Proof.
  intros Hord. pose proof Hord as Hord0. split_at m k.
  - split.
    + intros Hnin. exfalso. apply Hnin. unfold StdMap.keys.
      rewrite map_app. apply in_or_app. right. now left.
    + intros v Hin. pose proof (located_unique Hbelow Habove Hin) as ->.
      rewrite TSMap_erase_hit by exact Hbelow.
      destruct f as [fn|].
      * destruct (fn k v0 s) as [[b v'] s'] eqn:Hfn. simpl. destruct b.
        -- exists (pre ++ post). split; [reflexivity|]. split.
           ++ now apply ordered_erased in Hord.
           ++ intros e. now apply in_located_erased.
        -- exists (pre ++ (k, v') :: post). split; [reflexivity|]. split.
           ++ now apply (ordered_reassign k pre post v0).
           ++ split; [apply keys_located|]. split.
              ** apply in_located. now left.
              ** split; [intros e Hne; now apply in_located_other|].
                 now intros ->.
      * exists (pre ++ post). split; [reflexivity|]. split.
        -- now apply ordered_erased in Hord.
        -- intros e. now apply in_located_erased.
  - split.
    + intros _. now apply TSMap_erase_miss.
    + intros v Hin. exfalso. apply Habsent.
      unfold StdMap.keys. now apply (in_map fst) in Hin.
Qed.

(** [findInfimum] and [findInfimum_key] around the lower bound. *)

Lemma exact_test_miss (k : Key) (pre post : tsmap) :
  StdMap.above k post ->
  negb (length pre =? StdMap.end_ (pre ++ post))
  && key_eqb (StdMap.first (pre ++ post) (length pre)) k = false.
Proof.
  intros Ha. destruct post as [|[k1 v1] post].
  - unfold StdMap.end_. now rewrite app_nil_r, Nat.eqb_refl.
  - rewrite first_located, key_eqb_neq; [apply andb_false_r|].
    apply (above_not_key (e := (k1, v1)) Ha). now left.
Qed.

Lemma findInfimum_key_hit (k : Key) (pre post : tsmap) (v : Value) :
  StdMap.below k pre ->
  TSMap.findInfimum_key (pre ++ (k, v) :: post) k = ((k, v), true).
Proof.
  intros Hb. unfold TSMap.findInfimum_key.
  rewrite lower_bound_hit by exact Hb.
  now rewrite length_located_neq, first_located, second_located, key_eqb_refl.
Qed.

Lemma findInfimum_key_none (k : Key) (post : tsmap) :
  StdMap.above k post ->
  TSMap.findInfimum_key post k = ((key_default, value_default), false).
Proof.
  intros Ha. unfold TSMap.findInfimum_key.
  rewrite lower_bound_above by exact Ha.
  destruct post as [|[k1 v1] post]; [reflexivity|].
  unfold StdMap.first, StdMap.deref. simpl.
  rewrite key_eqb_neq; [reflexivity|].
  apply (above_not_key (e := (k1, v1)) Ha). now left.
Qed.

Lemma findInfimum_key_pred (k : Key) (pre post : tsmap) (e : Key * Value) :
  StdMap.below k (pre ++ [e]) -> StdMap.above k post ->
  TSMap.findInfimum_key (pre ++ e :: post) k = (e, true).
Proof.
  intros Hb Ha. unfold TSMap.findInfimum_key.
  replace (pre ++ e :: post) with ((pre ++ [e]) ++ post)
    by now rewrite <- app_assoc.
  rewrite lower_bound_miss, exact_test_miss by trivial.
  rewrite length_app, Nat.add_1_r. simpl.
  rewrite <- app_assoc. simpl. destruct e as [ke ve].
  now rewrite first_located, second_located.
Qed.

Lemma findInfimum_value (m : tsmap) (k : Key) :
  TSMap.findInfimum m k
  = (snd (fst (TSMap.findInfimum_key m k)), snd (TSMap.findInfimum_key m k)).
Proof.
  unfold TSMap.findInfimum, TSMap.findInfimum_key.
  destruct (negb _ && _); [reflexivity|].
  now destruct (_ =? _).
Qed.

(** The three ways [findInfimum_key] can end on an ordered map. *)
Lemma findInfimum_key_cases (m : tsmap) (k : Key) :
  StdMap.ordered m = true ->
  (exists pre v post,
      m = pre ++ (k, v) :: post /\ StdMap.below k pre /\ StdMap.above k post /\
      TSMap.findInfimum_key m k = ((k, v), true))
  \/ (StdMap.above k m /\
      TSMap.findInfimum_key m k = ((key_default, value_default), false))
  \/ (exists pre e post,
      m = pre ++ e :: post /\ StdMap.below k (pre ++ [e]) /\
      StdMap.above k post /\
      TSMap.findInfimum_key m k = (e, true)).
Proof.
  intros Hord. split_at m k.
  - left. exists pre, v0, post. repeat split; trivial.
    now apply findInfimum_key_hit.
  - right. induction pre as [|e pre _] using rev_ind.
    + left. split; [exact Habove | now apply findInfimum_key_none].
    + right. exists pre, e, post. rewrite <- app_assoc. repeat split; trivial.
      now apply findInfimum_key_pred.
Qed.

Lemma findInfimum_key_greatest (m : tsmap) (k : Key) :
  StdMap.ordered m = true ->
  let r := TSMap.findInfimum_key m k in
  TSMap.findInfimum m k = (snd (fst r), snd r) /\
  (snd r = true ->
   In (fst r) m /\ key_lt k (fst (fst r)) = false /\
   forall e, In e m -> key_lt k (fst e) = false ->
             key_lt (fst (fst r)) (fst e) = false) /\
  (snd r = false <-> m = [] \/ StdMap.above k m) /\
  (snd r = false <->
   StdMap.lower_bound m k = StdMap.begin m /\ ~ In k (StdMap.keys m)) /\
  (forall v, In (k, v) m -> r = ((k, v), true)) /\
  (~ In k (StdMap.keys m) -> snd r = true ->
   fst r = StdMap.deref m (pred (StdMap.lower_bound m k))).
Proof.
  intros Hord r. split; [apply findInfimum_value|]. subst r.
  destruct (findInfimum_key_cases m k Hord)
    as [(pre & v & post & -> & Hb & Ha & ->)
       | [(Ha & ->) | (pre & e & post & -> & Hb & Ha & ->)]]; simpl.
  - assert (Hk : In k (StdMap.keys (pre ++ (k, v) :: post))).
    { unfold StdMap.keys. rewrite map_app. apply in_or_app. right. now left. }
    split; [|split; [|split; [|split]]].
    + intros _. split; [apply in_located; now left|].
      split; [apply key_lt_irrefl | trivial].
    + split; [discriminate|]. intros [Hnil | Hab].
      * now destruct pre.
      * specialize (Hab (k, v)). simpl in Hab.
        rewrite key_lt_irrefl in Hab. symmetry. apply Hab.
        apply in_located. now left.
    + split; [discriminate | now intros [_ Hnin]].
    + intros v' Hin. now rewrite (located_unique Hb Ha Hin).
    + now intros Hnin.
  - assert (Hnin : ~ In k (StdMap.keys m)).
    { unfold StdMap.keys. rewrite in_map_iff. intros (e & He & Hin).
      now apply (above_not_key Ha Hin). }
    split; [|split; [|split; [|split]]].
    + discriminate.
    + split; [now right | reflexivity].
    + split; [|reflexivity]. intros _. split; [|exact Hnin].
      now apply lower_bound_above.
    + intros v Hin. exfalso. apply Hnin.
      unfold StdMap.keys. now apply (in_map fst) in Hin.
    + discriminate.
  - assert (Hek : key_lt (fst e) k = true).
    { apply Hb, in_or_app. right. now left. }
    assert (Hpre : StdMap.below k pre).
    { intros a Hin. apply Hb, in_or_app. now left. }
    assert (Hnin : ~ In k (StdMap.keys (pre ++ e :: post))).
    { unfold StdMap.keys. rewrite in_map_iff. intros (a & Hak & Hin).
      apply in_located in Hin as [-> | Hin].
      - rewrite Hak, key_lt_irrefl in Hek. discriminate.
      - apply in_app_or in Hin as [Hin | Hin].
        + now apply (below_not_key Hpre Hin).
        + now apply (above_not_key Ha Hin). }
    assert (Hlb : StdMap.lower_bound (pre ++ e :: post) k = S (length pre)).
    { replace (pre ++ e :: post) with ((pre ++ [e]) ++ post)
        by now rewrite <- app_assoc.
      rewrite lower_bound_miss, length_app by trivial. simpl. lia. }
    split; [|split; [|split; [|split]]].
    + intros _. split; [apply in_located; now left|].
      split; [now apply key_lt_asym|].
      intros a Hin Hle. apply in_located in Hin as [-> | Hin].
      * apply key_lt_irrefl.
      * apply in_app_or in Hin as [Hin | Hin].
        -- apply key_lt_asym. destruct e as [ke ve].
           apply ordered_located in Hord as (_ & Hlow & _).
           now apply Hlow.
        -- apply Ha in Hin. congruence.
    + split; [discriminate|]. intros [Hnil | Hab].
      * now destruct pre.
      * assert (Hke : key_lt k (fst e) = true)
          by (apply Hab, in_located; now left).
        apply key_lt_asym in Hke. congruence.
    + split; [discriminate|]. rewrite Hlb. now intros [Hz _].
    + intros v Hin. exfalso. apply Hnin.
      unfold StdMap.keys. now apply (in_map fst) in Hin.
    + intros _ _. rewrite Hlb. simpl. unfold StdMap.deref.
      now rewrite nth_at.
Qed.

(** [delete_if]: the loop against the pass of the specification. *)

Lemma delete_if_loop_spec {St : Type} (f : TSMap.callback Key Value St)
    (rest : tsmap) :
  forall (pre : tsmap) (fuel n : nat) (s : St),
    length rest < fuel ->
    TSMap.delete_if_loop fuel f (pre ++ rest) (length pre) n s
    = Some (pre ++ fst (fst (TSMap.delete_if_spec f rest s)),
            snd (fst (TSMap.delete_if_spec f rest s)),
            n + snd (TSMap.delete_if_spec f rest s)).
Proof.
  induction rest as [|[k v] rest IH]; intros pre fuel n s Hfuel;
    (destruct fuel as [|fuel]; [simpl in Hfuel; lia|]);
    cbn [TSMap.delete_if_loop TSMap.delete_if_spec].
  - unfold StdMap.end_. rewrite app_nil_r, Nat.eqb_refl. simpl.
    now rewrite app_nil_r, Nat.add_0_r.
  - rewrite length_located_neq, first_located, second_located.
    destruct (f k v s) as [[b v'] s1].
    rewrite assign_second_located.
    destruct (TSMap.delete_if_spec f rest s1) as [[kept s2] n'] eqn:Hrest.
    simpl in Hfuel. destruct b.
    + unfold StdMap.erase_it. rewrite erase_at_located.
      rewrite IH, Hrest by lia. simpl. do 2 f_equal. lia.
    + replace (pre ++ (k, v') :: rest) with ((pre ++ [(k, v')]) ++ rest)
        by now rewrite <- app_assoc.
      replace (S (length pre)) with (length (pre ++ [(k, v')]))
        by (rewrite length_app; simpl; lia).
      rewrite IH, Hrest by lia. simpl. now rewrite <- app_assoc.
Qed.

Lemma delete_if_runs {St : Type} (f : TSMap.callback Key Value St)
    (m : tsmap) (s : St) :
  TSMap.delete_if f m s = Some (TSMap.delete_if_spec f m s).
Proof.
  unfold TSMap.delete_if, StdMap.begin.
  etransitivity.
  - exact (delete_if_loop_spec f m [] (S (length m)) 0 s
             (Nat.lt_succ_diag_r _)).
  - now destruct (TSMap.delete_if_spec f m s) as [[kept s'] n].
Qed.

Lemma delete_if_spec_predicate (p : Key -> Value -> bool) (m : tsmap) :
  TSMap.delete_if_spec (TSMap.predicate p) m tt
  = (filter (fun e => negb (p (fst e) (snd e))) m, tt,
     length (filter (fun e => p (fst e) (snd e)) m)).
Proof.
  induction m as [|[k v] m IH]; [reflexivity|].
  cbn [TSMap.delete_if_spec]. unfold TSMap.predicate at 1.
  rewrite IH. simpl. now destruct (p k v).
Qed.

Lemma delete_if_spec_logged {St : Type} (f : TSMap.callback Key Value St)
    (m : tsmap) :
  forall (log : list Key) (s : St),
    TSMap.delete_if_spec (TSMap.logged f) m (log, s)
    = (fst (fst (TSMap.delete_if_spec f m s)),
       (log ++ TSMap.getKeyList m, snd (fst (TSMap.delete_if_spec f m s))),
       snd (TSMap.delete_if_spec f m s)).
Proof.
  induction m as [|[k v] m IH]; intros log s.
  - simpl. now rewrite app_nil_r.
  - cbn [TSMap.delete_if_spec]. unfold TSMap.logged at 1. simpl.
    destruct (f k v s) as [[b v'] s1]. rewrite IH.
    destruct (TSMap.delete_if_spec f m s1) as [[kept s2] n].
    simpl. rewrite <- app_assoc. simpl. now destruct b.
Qed.

(** The entries that stay are entries of the map, with the values the
    callable left, and the dropped ones are the rest. *)
Lemma delete_if_spec_keys {St : Type} (f : TSMap.callback Key Value St)
    (m : tsmap) :
  forall (s : St) (e : Key * Value),
    In e (fst (fst (TSMap.delete_if_spec f m s))) ->
    In (fst e) (StdMap.keys m).
Proof.
  induction m as [|[k v] m IH]; intros s e; [now simpl|].
  cbn [TSMap.delete_if_spec].
  destruct (f k v s) as [[b v'] s1].
  specialize (IH s1 e).
  destruct (TSMap.delete_if_spec f m s1) as [[kept s2] n].
  destruct b; simpl in *.
  - intros Hin. right. now apply IH.
  - intros [<- | Hin]; [now left | right; now apply IH].
Qed.

Lemma delete_if_spec_count {St : Type} (f : TSMap.callback Key Value St)
    (m : tsmap) :
  forall s : St,
    length (fst (fst (TSMap.delete_if_spec f m s)))
    + snd (TSMap.delete_if_spec f m s) = length m.
Proof.
  induction m as [|[k v] m IH]; intros s; [reflexivity|].
  cbn [TSMap.delete_if_spec].
  destruct (f k v s) as [[b v'] s1].
  specialize (IH s1).
  destruct (TSMap.delete_if_spec f m s1) as [[kept s2] n].
  destruct b; simpl in *; lia.
Qed.

Lemma delete_if_spec_ordered {St : Type} (f : TSMap.callback Key Value St)
    (m : tsmap) :
  forall s : St,
    StdMap.ordered m = true ->
    StdMap.ordered (fst (fst (TSMap.delete_if_spec f m s))) = true.
Proof.
  induction m as [|[k v] m IH]; intros s Hord; [reflexivity|].
  apply ordered_cons in Hord as [Hord Hk].
  cbn [TSMap.delete_if_spec].
  destruct (f k v s) as [[b v'] s1].
  specialize (IH s1 Hord).
  pose proof (delete_if_spec_keys f m s1) as Hkeys.
  destruct (TSMap.delete_if_spec f m s1) as [[kept s2] n].
  destruct b; cbn [fst snd] in *; [exact IH|].
  apply ordered_cons. split; [exact IH|].
  intros e Hin. apply Hkeys in Hin. unfold StdMap.keys in Hin.
  apply in_map_iff in Hin as (e' & <- & Hin'). now apply Hk.
Qed.

End TSMapFacts.

(** * The claims about the map, with the examples of the specification *)

(** C2: on every ordered map [findInfimum] returns the value, and
    [findInfimum_key] the entry, of the greatest key that is not above [k],
    with [true]: an entry of [k] itself wins, otherwise it is the entry
    before the lower bound.  The flag is [false] exactly when the map is
    empty or every key is above [k], which is when the lower bound is the
    first position and [k] is not stored.  On [{1:"a", 5:"b", 10:"c"}] the
    query 7 gives [("b", true)], the query 0 gives [false] and the query 5
    gives [("b", true)]. *)
Theorem findInfimum_greatest_key_not_above :
  (forall (Key Value : Type) (KT : KeyType Key) (VT : ValueType Value),
      KeyLaws Key ->
      forall (m : StdMap.t Key Value) (k : Key),
        StdMap.ordered m = true ->
        let r := TSMap.findInfimum_key m k in
        TSMap.findInfimum m k = (snd (fst r), snd r) /\
        (snd r = true ->
         In (fst r) m /\ key_lt k (fst (fst r)) = false /\
         forall e, In e m -> key_lt k (fst e) = false ->
                   key_lt (fst (fst r)) (fst e) = false) /\
        (snd r = false <-> m = [] \/ StdMap.above k m) /\
        (snd r = false <->
         StdMap.lower_bound m k = StdMap.begin m /\ ~ In k (StdMap.keys m)) /\
        (forall v, In (k, v) m -> r = ((k, v), true)) /\
        (~ In k (StdMap.keys m) -> snd r = true ->
         fst r = StdMap.deref m (pred (StdMap.lower_bound m k)))) /\
  TSMap.findInfimum infimum_example 7%Z = ("b"%string, true) /\
  snd (TSMap.findInfimum infimum_example 0%Z) = false /\
  TSMap.findInfimum infimum_example 5%Z = ("b"%string, true) /\
  TSMap.findInfimum_key infimum_example 7%Z = ((5%Z, "b"%string), true) /\
  snd (TSMap.findInfimum_key infimum_example 0%Z) = false /\
  TSMap.findInfimum_key infimum_example 5%Z = ((5%Z, "b"%string), true).
Proof.
  split; [|repeat split].
  intros Key Value KT VT KL m k Hord.
  exact (findInfimum_key_greatest m k Hord).
Qed.

Lemma findInfimum_greatest_key_not_above_witness :
  StdMap.ordered infimum_example = true /\
  In (fst (TSMap.findInfimum_key infimum_example 7%Z)) infimum_example /\
  key_lt 7%Z (fst (fst (TSMap.findInfimum_key infimum_example 7%Z))) = false.
Proof.
  split; [reflexivity|].
  pose proof (proj1 findInfimum_greatest_key_not_above
                Z string _ _ Z_KeyLaws infimum_example 7%Z eq_refl) as Hspec.
  destruct Hspec as (_ & Hfound & _).
  destruct (Hfound eq_refl) as (Hin & Hle & _).
  split; [exact Hin | exact Hle].
Defined.

(** C6: [delete_if(fn)] returns, and its result is that of one pass over
    the entries in iteration order (ascending keys, the map being ordered):
    [fn] is called once on each entry, the entries on which it answers
    [true] are erased and counted, the others stay.  For a predicate the
    map left is the entries that fail it and the result is the number that
    satisfy it.  On [{1,2,3,4,5}] with the predicate "the key is even" it
    leaves [{1,3,5}] and returns 2. *)
Theorem delete_if_erases_matching_entries :
  (forall (Key Value : Type) (KT : KeyType Key) (VT : ValueType Value)
          (St : Type) (f : TSMap.callback Key Value St)
          (m : StdMap.t Key Value) (s : St),
      TSMap.delete_if f m s = Some (TSMap.delete_if_spec f m s) /\
      (exists m' s' n,
          TSMap.delete_if (TSMap.logged f) m ([], s)
          = Some (m', (TSMap.getKeyList m, s'), n)) /\
      length (fst (fst (TSMap.delete_if_spec f m s)))
      + snd (TSMap.delete_if_spec f m s) = length m) /\
  (forall (Key Value : Type) (KT : KeyType Key) (VT : ValueType Value)
          (p : Key -> Value -> bool) (m : StdMap.t Key Value),
      TSMap.delete_if (TSMap.predicate p) m tt
      = Some (filter (fun e => negb (p (fst e) (snd e))) m, tt,
              length (filter (fun e => p (fst e) (snd e)) m))) /\
  (forall (Key Value : Type) (KT : KeyType Key) (VT : ValueType Value)
          (St : Type) (f : TSMap.callback Key Value St)
          (m : StdMap.t Key Value) (s : St),
      KeyLaws Key -> StdMap.ordered m = true ->
      exists m' s' n,
        TSMap.delete_if f m s = Some (m', s', n) /\
        StdMap.ordered m' = true) /\
  TSMap.delete_if (TSMap.predicate even_key) delete_if_example tt
  = Some ([(1%Z, tt); (3%Z, tt); (5%Z, tt)], tt, 2).
Proof.
  split; [|split; [|split; [|reflexivity]]].
  - intros Key Value KT VT St f m s. split; [apply delete_if_runs|]. split.
    + rewrite delete_if_runs, delete_if_spec_logged. simpl. eauto.
    + apply delete_if_spec_count.
  - intros Key Value KT VT p m.
    now rewrite delete_if_runs, delete_if_spec_predicate.
  - intros Key Value KT VT St f m s KL Hord.
    rewrite delete_if_runs.
    pose proof (delete_if_spec_ordered f m s Hord) as Hord'.
    destruct (TSMap.delete_if_spec f m s) as [[m' s'] n]. eauto.
Qed.

Lemma delete_if_erases_matching_entries_witness :
  StdMap.ordered delete_if_example = true /\
  exists m' s' n,
    TSMap.delete_if (TSMap.predicate even_key) delete_if_example tt
    = Some (m', s', n) /\ StdMap.ordered m' = true.
Proof.
  split; [reflexivity|].
  apply (proj1 (proj2 (proj2 delete_if_erases_matching_entries))
           Z unit _ _ unit (TSMap.predicate even_key) delete_if_example tt
           Z_KeyLaws).
  reflexivity.
Defined.

Lemma find_returns_stored_value_witness :
  StdMap.ordered infimum_example = true /\
  In (5%Z, "b"%string) infimum_example /\
  TSMap.find infimum_example 5%Z = ("b"%string, true).
Proof.
  split; [reflexivity|]. split; [simpl; tauto|].
  assert (Hord : StdMap.ordered infimum_example = true) by reflexivity.
  apply (proj1 (find_returns_stored_value infimum_example 5%Z Hord)).
  simpl; tauto.
Defined.

Lemma emplace_without_force_keeps_map_witness :
  StdMap.ordered one_entry = true /\
  In (1%Z, 10%Z) one_entry /\
  TSMap.emplace one_entry 1%Z 20%Z false = (one_entry, false).
Proof.
  split; [reflexivity|]. split; [simpl; tauto|].
  assert (Hord : StdMap.ordered one_entry = true) by reflexivity.
  apply (emplace_without_force_keeps_map one_entry 1%Z 10%Z 20%Z Hord).
  simpl; tauto.
Defined.

Lemma createInPlace_present_keeps_map_witness :
  StdMap.ordered one_entry = true /\
  In (1%Z, 10%Z) one_entry /\
  TSMap.createInPlace Z.of_nat one_entry 1%Z 7 = (one_entry, false).
Proof.
  split; [reflexivity|]. split; [simpl; tauto|].
  assert (Hord : StdMap.ordered one_entry = true) by reflexivity.
  apply (createInPlace_present_keeps_map Z.of_nat one_entry 1%Z 10%Z 7 Hord).
  simpl; tauto.
Defined.

Lemma emplace_force_replaces_witness :
  StdMap.ordered infimum_example = true /\
  exists m2,
    TSMap.emplace
      (fst (TSMap.emplace infimum_example 7%Z "x"%string false))
      7%Z "y"%string true = (m2, true) /\
    TSMap.find m2 7%Z = ("y"%string, true).
Proof.
  split; [reflexivity|].
  assert (Hord : StdMap.ordered infimum_example = true) by reflexivity.
  destruct (emplace_force_replaces infimum_example 7%Z "x"%string "y"%string
              Hord) as (m2 & Hcall & Hfind & _).
  exists m2. split; [exact Hcall | exact Hfind].
Defined.

(** C1, as stated, fails on [{1:10}]: [replace(1, 20, true)] stores [20]
    and returns the previous value [10], not the new one. *)
Lemma replace_force_does_not_return_new_value :
  TSMap.replace one_entry 1%Z 20%Z true = ([(1%Z, 20%Z)], (10%Z, false)) /\
  ~ (forall (m : StdMap.t Z Z) (k old v : Z),
        StdMap.ordered m = true -> In (k, old) m ->
        snd (TSMap.replace m k v true) = (v, false)).
Proof.
  split; [reflexivity|].
  intros Hclaim.
  specialize (Hclaim one_entry 1%Z 10%Z 20%Z eq_refl (or_introl eq_refl)).
  discriminate Hclaim.
Qed.

Lemma replace_force_returns_previous_witness :
  StdMap.ordered one_entry = true /\
  In (1%Z, 10%Z) one_entry /\
  exists m',
    TSMap.replace one_entry 1%Z 20%Z true = (m', (10%Z, false)) /\
    TSMap.find m' 1%Z = (20%Z, true).
Proof.
  split; [reflexivity|]. split; [simpl; tauto|].
  assert (Hord : StdMap.ordered one_entry = true) by reflexivity.
  destruct (proj1 (replace_force_returns_previous one_entry 1%Z 20%Z Hord)
              10%Z (or_introl eq_refl)) as (m' & Hcall & Hfind & _).
  exists m'. split; [exact Hcall | exact Hfind].
Defined.

(** C7, as stated, fails on [{1:10}] with a callable that writes [99] and
    answers [false]: [erase] returns [false] and the map is [{1:99}]. *)
Lemma erase_veto_can_change_value :
  TSMap.erase one_entry 1%Z (Some veto_and_write) tt
  = ([(1%Z, 99%Z)], tt, false) /\
  ~ (forall (m : StdMap.t Z Z) (k : Z)
            (f : option (TSMap.callback Z Z unit)) (s : unit),
        StdMap.ordered m = true ->
        snd (TSMap.erase m k f s) = false ->
        fst (fst (TSMap.erase m k f s)) = m).
Proof.
  split; [reflexivity|].
  intros Hclaim.
  specialize (Hclaim one_entry 1%Z (Some veto_and_write) tt eq_refl eq_refl).
  discriminate Hclaim.
Qed.

Lemma erase_veto_keeps_entries_witness :
  StdMap.ordered one_entry = true /\
  In (1%Z, 10%Z) one_entry /\
  exists m',
    TSMap.erase one_entry 1%Z (Some veto) tt = (m', tt, false) /\
    StdMap.keys m' = StdMap.keys one_entry.
Proof.
  split; [reflexivity|]. split; [simpl; tauto|].
  assert (Hord : StdMap.ordered one_entry = true) by reflexivity.
  destruct (proj2 (erase_veto_keeps_entries one_entry 1%Z (Some veto) tt
                     Hord) 10%Z (or_introl eq_refl))
    as (m' & Hcall & _ & Hkeys & _).
  exists m'. split; [exact Hcall | exact Hkeys].
Defined.

(** * The reader-writer lock *)

Section WriterPreference.
Import SharedMutex.

Lemma mem_In (t : thread) (l : list thread) : mem t l = true <-> In t l.
Proof.
  unfold mem. rewrite existsb_exists. split.
  - intros (x & Hin & Heq). apply Nat.eqb_eq in Heq. now subst.
  - intros Hin. exists t. split; [exact Hin | apply Nat.eqb_refl].
Qed.

Lemma remove_other (t w : thread) (l : list thread) :
  t <> w -> In w l -> In w (remove t l).
Proof.
  intros Hne Hin. unfold remove. apply filter_In. split; [exact Hin|].
  apply negb_true_iff, Nat.eqb_neq. exact Hne.
Qed.

Lemma remove_shrinks (t : thread) (l : list thread) :
  In t l -> length (remove t l) < length l.
Proof.
  induction l as [|a l IH]; intros Hin; [destruct Hin|].
  unfold remove in *. simpl. destruct (Nat.eqb t a) eqn:Heq; simpl.
  - apply Nat.lt_succ_r, filter_length_le.
  - destruct Hin as [-> | Hin]; [now rewrite Nat.eqb_refl in Heq|].
    apply -> Nat.succ_lt_mono. now apply IH.
Qed.

(** With a writer pending the gate is closed. *)
Lemma gate_closed (s : state) (w : thread) :
  In w (writers_pending s) -> shared_free s = false.
Proof.
  unfold shared_free. destruct (writers_pending s); [intros []|].
  intros _. apply andb_false_r.
Qed.

(** One event while [w] is pending and is not let in. *)
Lemma step_with_pending_writer (s s1 : state) (e : event) (w : thread) :
  In w (writers_pending s) ->
  step s e = Some s1 ->
  is_acquire_of w e = false ->
  shared_acquisition e = false /\
  In w (writers_pending s1) /\
  backlog s1 + (if hand_off e then 1 else 0)
  <= backlog s + 2 * (if writer_arrival e then 1 else 0).
Proof.
  intros Hw Hstep Hacq. pose proof (gate_closed s w Hw) as Hgate.
  unfold backlog. destruct e as [t|t|t b|t|t|t|t b|t]; simpl in *.
  - destruct (mem t (writers_pending s)); inversion Hstep; subst; simpl.
    repeat split.
    + apply in_or_app. now left.
    + rewrite length_app. simpl. lia.
  - destruct (mem t (writers_pending s)) eqn:Hmem; [|discriminate].
    destruct (exclusive_free s) eqn:Hfree; [|discriminate].
    inversion Hstep; subst; simpl. repeat split.
    + apply remove_other; [|exact Hw]. now apply Nat.eqb_neq.
    + apply mem_In, remove_shrinks in Hmem.
      unfold exclusive_free in Hfree. apply andb_true_iff in Hfree as [_ Hact].
      apply negb_true_iff in Hact. rewrite Hact. lia.
  - destruct (Bool.eqb b (exclusive_free s)); inversion Hstep; subst; simpl.
    repeat split; [exact Hw|].
    destruct (writer_active s), b; simpl; lia.
  - destruct (writer_active s); inversion Hstep; subst; simpl.
    repeat split; [exact Hw | lia].
  - destruct (mem t (readers_pending s)); inversion Hstep; subst; simpl.
    repeat split; [exact Hw | lia].
  - rewrite Hgate, andb_false_r in Hstep. discriminate.
  - rewrite Hgate in Hstep. destruct b; [discriminate|].
    inversion Hstep; subst; simpl. repeat split; [exact Hw | lia].
  - destruct (shared_count s) as [|n]; inversion Hstep; subst; simpl.
    repeat split; [exact Hw | lia].
Qed.

End WriterPreference.

(** C3: in every execution of the lock from a state in which the writer [w]
    is pending, as long as [w] has not acquired the lock no shared
    acquisition succeeds, blocking or not, whatever the number of active
    readers; [w] stays pending and the gate stays closed.  The readers that
    arrive do not add to what [w] waits for: each hand-off (a release, or
    the admission of a pending writer) takes one unit off the backlog, so
    with no further writer arriving at most [backlog s] hand-offs happen
    before [w] is let in; and the lock is never stuck, since a holder can
    release and, once none is left, [w] can acquire. *)
Theorem writer_pending_closes_gate
    (s s' : SharedMutex.state) (tr : list SharedMutex.event)
    (w : SharedMutex.thread) :
  In w (SharedMutex.writers_pending s) ->
  SharedMutex.run s tr = Some s' ->
  existsb (SharedMutex.is_acquire_of w) tr = false ->
  existsb SharedMutex.shared_acquisition tr = false /\
  In w (SharedMutex.writers_pending s') /\
  (forall t,
      SharedMutex.step s' (SharedMutex.LockSharedAcquire t) = None /\
      SharedMutex.step s' (SharedMutex.TryLockShared t true) = None) /\
  SharedMutex.backlog s' + length (filter SharedMutex.hand_off tr)
  <= SharedMutex.backlog s
     + 2 * length (filter SharedMutex.writer_arrival tr) /\
  (0 < SharedMutex.shared_count s' ->
   forall t, SharedMutex.step s' (SharedMutex.UnlockShared t) <> None) /\
  (SharedMutex.writer_active s' = true ->
   forall t, SharedMutex.step s' (SharedMutex.Unlock t) <> None) /\
  (SharedMutex.shared_count s' = 0 ->
   SharedMutex.writer_active s' = false ->
   SharedMutex.step s' (SharedMutex.LockAcquire w) <> None).
Proof.
  revert s. induction tr as [|e tr IH]; intros s Hw Hrun Hacq.
  - inversion Hrun; subst s'. simpl.
    pose proof (gate_closed s w Hw) as Hgate.
    split; [reflexivity|]. split; [exact Hw|]. split.
    { intros t. simpl. rewrite Hgate, andb_false_r. now split. }
    split; [lia|]. split.
    { intros Hpos t. simpl. destruct (SharedMutex.shared_count s); [lia|].
      discriminate. }
    split.
    { intros Hact t. simpl. rewrite Hact. discriminate. }
    intros Hcount Hact. simpl.
    apply mem_In in Hw. unfold SharedMutex.exclusive_free.
    rewrite Hw, Hcount, Hact. discriminate.
  - simpl in Hrun, Hacq.
    apply orb_false_iff in Hacq as [Hacq_e Hacq_tr].
    destruct (SharedMutex.step s e) as [s1|] eqn:Hstep; [|discriminate].
    destruct (step_with_pending_writer s s1 e w Hw Hstep Hacq_e)
      as (Hshared & Hw1 & Hback).
    destruct (IH s1 Hw1 Hrun Hacq_tr)
      as (Hnone & Hw' & Hgate & Hbound & Hlive).
    split; [simpl; now rewrite Hshared|].
    split; [exact Hw'|]. split; [exact Hgate|]. split; [|exact Hlive].
    simpl. destruct (SharedMutex.hand_off e), (SharedMutex.writer_arrival e);
      simpl in *; lia.
Qed.

Lemma writer_pending_closes_gate_witness :
  let busy :=
    {| SharedMutex.shared_count := 2;
       SharedMutex.writer_active := false;
       SharedMutex.writers_pending := [7];
       SharedMutex.readers_pending := [] |} in
  let tr := [SharedMutex.LockSharedCall 3;
             SharedMutex.UnlockShared 1;
             SharedMutex.TryLockShared 4 false;
             SharedMutex.UnlockShared 2] in
  exists s',
    SharedMutex.run busy tr = Some s' /\
    existsb SharedMutex.shared_acquisition tr = false /\
    SharedMutex.step s' (SharedMutex.LockSharedAcquire 3) = None /\
    SharedMutex.step s' (SharedMutex.LockAcquire 7) <> None.
Proof.
  intros busy tr.
  exists {| SharedMutex.shared_count := 0;
            SharedMutex.writer_active := false;
            SharedMutex.writers_pending := [7];
            SharedMutex.readers_pending := [3] |}.
  assert (Hw : In 7 (SharedMutex.writers_pending busy)) by (simpl; tauto).
  destruct (writer_pending_closes_gate busy _ tr 7 Hw eq_refl eq_refl)
    as (Hnone & _ & Hgate & _ & _ & _ & Hlive).
  split; [reflexivity|]. split; [exact Hnone|].
  split; [exact (proj1 (Hgate 3)) | exact (Hlive eq_refl eq_refl)].
Defined.

(** * The shared guard *)

(** C9, as stated, fails on the class as it is declared: a guard can be
    neither move-constructed nor move-assigned, so no operation carries the
    ownership from one guard to another. *)
Lemma shared_lock_is_not_movable :
  ~ (SharedLock.move_constructible SharedLock.shared_lock_class = true \/
     SharedLock.move_assignable SharedLock.shared_lock_class = true).
Proof. intros [Hmove | Hmove]; discriminate Hmove. Qed.

(** C9, as the code has it: a guard can be neither copied nor moved, by
    construction or by assignment, so the ownership stays with the guard
    that acquired it.  The destruction of a guard releases the lock if and
    only if the guard owns it: a guard that does not own leaves the lock as
    it is, and one that owns takes one shared holder off and changes
    nothing else. *)
Theorem shared_lock_not_transferable_releases_iff_owned :
  SharedLock.copy_constructible SharedLock.shared_lock_class = false /\
  SharedLock.copy_assignable SharedLock.shared_lock_class = false /\
  SharedLock.move_constructible SharedLock.shared_lock_class = false /\
  SharedLock.move_assignable SharedLock.shared_lock_class = false /\
  (forall (g : SharedLock.guard) (s : SharedMutex.state),
      SharedLock.owns g = false -> SharedLock.destroy g s = Some s) /\
  (forall (g : SharedLock.guard) (s : SharedMutex.state),
      SharedLock.owns g = true ->
      0 < SharedMutex.shared_count s ->
      exists s',
        SharedLock.destroy g s = Some s' /\
        S (SharedMutex.shared_count s') = SharedMutex.shared_count s /\
        SharedMutex.writer_active s' = SharedMutex.writer_active s /\
        SharedMutex.writers_pending s' = SharedMutex.writers_pending s /\
        SharedMutex.readers_pending s' = SharedMutex.readers_pending s) /\
  (forall (g : SharedLock.guard) (s s' : SharedMutex.state),
      SharedLock.destroy g s = Some s' ->
      (s' <> s <-> SharedLock.owns g = true)).
Proof.
  repeat (split; [reflexivity|]).
  split; [|split].
  - intros g s Howns. unfold SharedLock.destroy. now rewrite Howns.
  - intros g s Howns Hpos. unfold SharedLock.destroy. rewrite Howns. simpl.
    destruct (SharedMutex.shared_count s) as [|n] eqn:Hcount; [lia|].
    eexists. split; [reflexivity|]. simpl. now repeat split.
  - intros g s s' Hdestroy. unfold SharedLock.destroy in Hdestroy.
    destruct (SharedLock.owns g).
    + simpl in Hdestroy.
      destruct (SharedMutex.shared_count s) as [|n] eqn:Hcount;
        [discriminate|].
      inversion Hdestroy; subst s'. split; [reflexivity|].
      intros _ Heq. apply (f_equal SharedMutex.shared_count) in Heq.
      simpl in Heq. lia.
    + inversion Hdestroy; subst s'. split; [intros Hne; now destruct Hne|].
      discriminate.
Qed.

Lemma shared_lock_not_transferable_releases_iff_owned_witness :
  let held :=
    {| SharedMutex.shared_count := 1;
       SharedMutex.writer_active := false;
       SharedMutex.writers_pending := [];
       SharedMutex.readers_pending := [] |} in
  let g := {| SharedLock.holder := 1; SharedLock.owns := true |} in
  SharedLock.owns g = true /\ 0 < SharedMutex.shared_count held /\
  exists s',
    SharedLock.destroy g held = Some s' /\
    S (SharedMutex.shared_count s') = SharedMutex.shared_count held.
Proof.
  intros held g. split; [reflexivity|]. split; [simpl; lia|].
  destruct shared_lock_not_transferable_releases_iff_owned
    as (_ & _ & _ & _ & _ & Hrelease & _).
  assert (Hpos : 0 < SharedMutex.shared_count held) by (simpl; lia).
  destruct (Hrelease g held eq_refl Hpos) as (s' & Hdestroy & Hcount & _).
  exists s'. split; [exact Hdestroy | exact Hcount].
Defined.

(** * The remaining methods of [TSMap] *)

Section TSMapMore.
Context {Key Value : Type} `{KeyType Key} `{ValueType Value} `{!KeyLaws Key}.

#[local] Abbreviation omap := (StdMap.t Key Value).

Ltac split_around m k :=
  let pre := fresh "pre" in
  let post := fresh "post" in
  let v0 := fresh "v0" in
  let Hb := fresh "Hbelow" in
  let Ha := fresh "Habove" in
  let Hnin := fresh "Habsent" in
  match goal with
  | Hord : StdMap.ordered m = true |- _ =>
      destruct (locate m k Hord)
        as [(pre & v0 & post & -> & Hb & Ha)
           | (Hnin & pre & post & -> & Hb & Ha)]
  end.

Lemma key_at_located (pre post : omap) (k : Key) (v : Value) :
  In k (StdMap.keys (pre ++ (k, v) :: post)).
Proof.
  unfold StdMap.keys. rewrite map_app. apply in_or_app. right. now left.
Qed.

Lemma key_of_entry (m : omap) (k : Key) (v : Value) :
  In (k, v) m -> In k (StdMap.keys m).
Proof. intros Hin. unfold StdMap.keys. now apply (in_map fst) in Hin. Qed.

Lemma absent_around (k : Key) (pre post : omap) :
  StdMap.below k pre -> StdMap.above k post ->
  ~ In k (StdMap.keys (pre ++ post)).
Proof.
  intros Hb Ha. unfold StdMap.keys. rewrite in_map_iff.
  intros (e & He & Hin). apply in_app_or in Hin as [Hin | Hin].
  - now apply (below_not_key Hb Hin).
  - now apply (above_not_key Ha Hin).
Qed.

Lemma ordered_around (k : Key) (pre post : omap) (v : Value) :
  StdMap.ordered (pre ++ (k, v) :: post) = true ->
  StdMap.ordered (pre ++ post) = true.
Proof. apply ordered_erased. Qed.

(** What [find] answers is what the map holds. *)
Lemma find_found_iff (m : omap) (k : Key) (v : Value) :
  StdMap.ordered m = true ->
  (TSMap.find m k = (v, true) <-> In (k, v) m).
Proof.
  intros Hord. split_around m k.
  - rewrite TSMap_find_hit by exact Hbelow. split.
    + intros Heq. inversion Heq; subst. apply in_located. now left.
    + intros Hin. now rewrite (located_unique Hbelow Habove Hin).
  - rewrite TSMap_find_miss by trivial. split; [discriminate|].
    intros Hin. destruct Habsent. now apply key_of_entry in Hin.
Qed.

Lemma find_flag_iff (m : omap) (k : Key) :
  StdMap.ordered m = true ->
  (snd (TSMap.find m k) = true <-> In k (StdMap.keys m)).
Proof.
  intros Hord. split_around m k.
  - rewrite TSMap_find_hit by exact Hbelow. simpl.
    split; [intros _; apply key_at_located | reflexivity].
  - rewrite TSMap_find_miss by trivial. simpl.
    split; [discriminate | intros Hin; now destruct Habsent].
Qed.

(** Two ordered maps with the same entries for [k] answer [find(k)] alike. *)
Lemma find_ext (m m' : omap) (k : Key) :
  StdMap.ordered m = true -> StdMap.ordered m' = true ->
  (forall v, In (k, v) m' <-> In (k, v) m) ->
  TSMap.find m' k = TSMap.find m k.
Proof.
  intros Hord Hord' Hsame.
  destruct (locate m k Hord)
    as [(pre & v0 & post & Hm & Hb & Ha) | (Hnin & pre & post & Hm & Hb & Ha)].
  - assert (Hin : In (k, v0) m) by (rewrite Hm; apply in_located; now left).
    apply (find_found_iff m k v0 Hord) in Hin as Hfind. rewrite Hfind.
    apply (find_found_iff m' k v0 Hord'). now apply Hsame.
  - destruct (locate m' k Hord')
      as [(pre' & v1 & post' & Hm' & Hb' & Ha')
         | (Hnin' & pre' & post' & Hm' & Hb' & Ha')].
    + exfalso. apply Hnin. apply (key_of_entry m k v1), Hsame.
      rewrite Hm'. apply in_located. now left.
    + rewrite Hm, Hm'. now rewrite !TSMap_find_miss.
Qed.

Lemma in_around (pre post : omap) (k : Key) (v : Value) (e : Key * Value) :
  fst e <> k -> (In e (pre ++ (k, v) :: post) <-> In e (pre ++ post)).
Proof.
  intros Hne. rewrite in_located. split; [|now right].
  intros [-> | Hin]; [now destruct Hne | exact Hin].
Qed.

(** The methods at a located key. *)

Lemma TSMap_remove_hit (k : Key) (pre post : omap) (v : Value) :
  StdMap.below k pre ->
  TSMap.remove (pre ++ (k, v) :: post) k = (pre ++ post, (v, true)).
Proof.
  intros Hb. unfold TSMap.remove.
  now rewrite find_hit, length_located_neq, second_located, erase_hit.
Qed.

Lemma TSMap_remove_miss (k : Key) (pre post : omap) :
  StdMap.below k pre -> StdMap.above k post ->
  TSMap.remove (pre ++ post) k = (pre ++ post, (value_default, false)).
Proof.
  intros Hb Ha. unfold TSMap.remove. now rewrite find_miss, Nat.eqb_refl.
Qed.

Lemma TSMap_perform_hit {St : Type} (k : Key) (pre post : omap) (v0 : Value)
    (fn : TSMap.callback Key Value St) (s : St) :
  StdMap.below k pre ->
  TSMap.perform (pre ++ (k, v0) :: post) k (Some fn) s
  = (pre ++ (k, snd (fst (fn k v0 s))) :: post,
     snd (fn k v0 s), fst (fst (fn k v0 s))).
Proof.
  intros Hb. unfold TSMap.perform.
  rewrite find_hit, length_located_neq, second_located by exact Hb.
  destruct (fn k v0 s) as [[b v'] s']. now rewrite assign_second_located.
Qed.

Lemma TSMap_perform_miss {St : Type} (k : Key) (pre post : omap)
    (f : option (TSMap.callback Key Value St)) (s : St) :
  StdMap.below k pre -> StdMap.above k post ->
  TSMap.perform (pre ++ post) k f s = (pre ++ post, s, false).
Proof.
  intros Hb Ha. unfold TSMap.perform.
  now rewrite find_miss, Nat.eqb_refl.
Qed.

Lemma TSMap_perform_unset {St : Type} (k : Key) (m : omap) (s : St) :
  TSMap.perform m k (@None (TSMap.callback Key Value St)) s = (m, s, false).
Proof. unfold TSMap.perform. now destruct (_ =? _). Qed.

Lemma TSMap_createInPlace_miss {Args : Type} (construct : Args -> Value)
    (k : Key) (pre post : omap) (args : Args) :
  StdMap.below k pre -> StdMap.above k post ->
  TSMap.createInPlace construct (pre ++ post) k args
  = (pre ++ (k, construct args) :: post, true).
Proof.
  intros Hb Ha. unfold TSMap.createInPlace. now rewrite emplace_miss.
Qed.

(** A map that is [pre ++ post] with or without an entry of [k] between. *)
#[local] Abbreviation around k m pre post :=
  (m = pre ++ post \/ exists v, m = pre ++ (k, v) :: post).

Lemma around_ordered (k : Key) (m pre post : omap) :
  StdMap.below k pre -> StdMap.above k post ->
  StdMap.ordered (pre ++ post) = true ->
  around k m pre post -> StdMap.ordered m = true.
Proof.
  intros Hb Ha Hord [-> | (v & ->)]; [exact Hord|].
  now apply ordered_located.
Qed.

Lemma around_frame (k : Key) (m m' pre post : omap) (e : Key * Value) :
  around k m pre post -> around k m' pre post ->
  fst e <> k -> (In e m' <-> In e m).
Proof.
  intros [-> | (v & ->)] [-> | (v' & ->)] Hne;
    rewrite ?(in_around pre post k _ e Hne); reflexivity.
Qed.

(** Every writer leaves the map as it was around the key it is called on. *)
Lemma writers_around (m : omap) (k : Key) :
  StdMap.ordered m = true ->
  exists pre post,
    StdMap.below k pre /\ StdMap.above k post /\
    StdMap.ordered (pre ++ post) = true /\
    around k m pre post /\
    (forall v force, around k (fst (TSMap.emplace m k v force)) pre post) /\
    (forall (Args : Type) (construct : Args -> Value) (args : Args),
        around k (fst (TSMap.createInPlace construct m k args)) pre post) /\
    (forall v force, around k (fst (TSMap.replace m k v force)) pre post) /\
    (forall (St : Type) (f : option (TSMap.callback Key Value St)) (s : St),
        around k (fst (fst (TSMap.erase m k f s))) pre post) /\
    around k (fst (TSMap.remove m k)) pre post /\
    (forall (St : Type) (f : option (TSMap.callback Key Value St)) (s : St),
        around k (fst (fst (TSMap.perform m k f s))) pre post).
Proof.
  intros Hord. pose proof Hord as Hord0. split_around m k.
  - exists pre, post. split; [exact Hbelow|]. split; [exact Habove|].
    split; [now apply ordered_erased in Hord|].
    split; [right; now exists v0|].
    split; [|split; [|split; [|split; [|split]]]].
    + intros v force. rewrite TSMap_emplace_hit by trivial.
      right. destruct force; simpl; eauto.
    + intros Args construct args.
      rewrite TSMap_createInPlace_hit by trivial. right. simpl. eauto.
    + intros v force. rewrite TSMap_replace_hit by trivial.
      right. destruct force; simpl; eauto.
    + intros St f s. rewrite TSMap_erase_hit by trivial.
      destruct f as [fn|]; [|now left].
      destruct (fn k v0 s) as [[[] v'] s']; simpl; [now left | right; eauto].
    + rewrite TSMap_remove_hit by trivial. now left.
    + intros St [fn|] s.
      * rewrite TSMap_perform_hit by trivial. right. simpl. eauto.
      * rewrite TSMap_perform_unset. right. simpl. eauto.
  - exists pre, post. split; [exact Hbelow|]. split; [exact Habove|].
    split; [exact Hord|]. split; [now left|].
    split; [|split; [|split; [|split; [|split]]]].
    + intros v force. rewrite TSMap_emplace_miss by trivial.
      right. simpl. eauto.
    + intros Args construct args.
      rewrite TSMap_createInPlace_miss by trivial. right. simpl. eauto.
    + intros v force. rewrite TSMap_replace_miss by trivial.
      right. simpl. eauto.
    + intros St f s. rewrite TSMap_erase_miss by trivial. now left.
    + rewrite TSMap_remove_miss by trivial. now left.
    + intros St f s. rewrite TSMap_perform_miss by trivial. now left.
Qed.

(** The loops of [for_each], [for_each_ro] and [getKeyList] against one
    pass over the entries. *)

Lemma for_each_loop_pass {St : Type} (f : TSMap.callback Key Value St)
    (rest : omap) :
  forall (pre : omap) (fuel n : nat) (s : St),
    length rest < fuel ->
    TSMap.for_each_loop fuel f (pre ++ rest) (length pre) n s
    = Some (pre ++ fst (fst (TSMap.for_each_pass f rest s)),
            snd (fst (TSMap.for_each_pass f rest s)),
            n + snd (TSMap.for_each_pass f rest s)).
Proof.
  induction rest as [|[k v] rest IH]; intros pre fuel n s Hfuel;
    (destruct fuel as [|fuel]; [simpl in Hfuel; lia|]);
    cbn [TSMap.for_each_loop TSMap.for_each_pass].
  - unfold StdMap.end_. rewrite app_nil_r, Nat.eqb_refl. simpl.
    now rewrite app_nil_r, Nat.add_0_r.
  - rewrite length_located_neq, first_located, second_located.
    destruct (f k v s) as [[b v'] s1].
    rewrite assign_second_located.
    destruct (TSMap.for_each_pass f rest s1) as [[done s2] c] eqn:Hrest.
    simpl in Hfuel.
    replace (pre ++ (k, v') :: rest) with ((pre ++ [(k, v')]) ++ rest)
      by now rewrite <- app_assoc.
    replace (S (length pre)) with (length (pre ++ [(k, v')]))
      by (rewrite length_app; simpl; lia).
    rewrite IH, Hrest by lia. simpl. rewrite <- app_assoc. simpl.
    do 2 f_equal. destruct b; lia.
Qed.

Lemma for_each_runs {St : Type} (f : TSMap.callback Key Value St)
    (m : omap) (s : St) :
  TSMap.for_each f m s = Some (TSMap.for_each_pass f m s).
Proof.
  etransitivity.
  - exact (for_each_loop_pass f m [] (S (length m)) 0 s
             (Nat.lt_succ_diag_r _)).
  - now destruct (TSMap.for_each_pass f m s) as [[done s'] n].
Qed.

Lemma for_each_ro_loop_pass {St : Type} (f : TSMap.callback_ro Key Value St)
    (rest : omap) :
  forall (pre : omap) (fuel n : nat) (s : St),
    length rest < fuel ->
    TSMap.for_each_ro_loop fuel f (pre ++ rest) (length pre) n s
    = Some (fst (TSMap.for_each_ro_pass f rest s),
            n + snd (TSMap.for_each_ro_pass f rest s)).
Proof.
  induction rest as [|[k v] rest IH]; intros pre fuel n s Hfuel;
    (destruct fuel as [|fuel]; [simpl in Hfuel; lia|]);
    cbn [TSMap.for_each_ro_loop TSMap.for_each_ro_pass].
  - unfold StdMap.end_. rewrite app_nil_r, Nat.eqb_refl. simpl.
    now rewrite Nat.add_0_r.
  - rewrite length_located_neq, first_located, second_located.
    destruct (f k v s) as [b s1].
    destruct (TSMap.for_each_ro_pass f rest s1) as [s2 c] eqn:Hrest.
    simpl in Hfuel.
    replace (pre ++ (k, v) :: rest) with ((pre ++ [(k, v)]) ++ rest)
      by now rewrite <- app_assoc.
    replace (S (length pre)) with (length (pre ++ [(k, v)]))
      by (rewrite length_app; simpl; lia).
    rewrite IH, Hrest by lia. simpl. f_equal. f_equal. destruct b; lia.
Qed.

Lemma for_each_ro_runs {St : Type} (f : TSMap.callback_ro Key Value St)
    (m : omap) (s : St) :
  TSMap.for_each_ro f m s = Some (TSMap.for_each_ro_pass f m s).
Proof.
  etransitivity.
  - exact (for_each_ro_loop_pass f m [] (S (length m)) 0 s
             (Nat.lt_succ_diag_r _)).
  - now destruct (TSMap.for_each_ro_pass f m s) as [s' n].
Qed.

Lemma getKeyList_loop_keys (rest : omap) :
  forall (pre : omap) (fuel : nat) (keyList : list Key),
    length rest < fuel ->
    TSMap.getKeyList_loop fuel (pre ++ rest) (length pre) keyList
    = Some (keyList ++ StdMap.keys rest).
Proof.
  induction rest as [|[k v] rest IH]; intros pre fuel keyList Hfuel;
    (destruct fuel as [|fuel]; [simpl in Hfuel; lia|]);
    cbn [TSMap.getKeyList_loop].
  - unfold StdMap.end_. rewrite app_nil_r, Nat.eqb_refl. simpl.
    now rewrite app_nil_r.
  - rewrite length_located_neq, first_located. simpl in Hfuel.
    replace (pre ++ (k, v) :: rest) with ((pre ++ [(k, v)]) ++ rest)
      by now rewrite <- app_assoc.
    replace (S (length pre)) with (length (pre ++ [(k, v)]))
      by (rewrite length_app; simpl; lia).
    rewrite IH by lia. simpl. now rewrite <- app_assoc.
Qed.

Lemma getKeyList_iter_runs (m : omap) :
  TSMap.getKeyList_iter m = Some (TSMap.getKeyList m).
Proof.
  exact (getKeyList_loop_keys m [] (S (length m)) []
           (Nat.lt_succ_diag_r _)).
Qed.

(** What one pass keeps and counts. *)

Lemma for_each_pass_keys {St : Type} (f : TSMap.callback Key Value St)
    (m : omap) :
  forall s : St,
    StdMap.keys (fst (fst (TSMap.for_each_pass f m s))) = StdMap.keys m.
Proof.
  induction m as [|[k v] m IH]; intros s; [reflexivity|].
  cbn [TSMap.for_each_pass].
  destruct (f k v s) as [[b v'] s1]. specialize (IH s1).
  destruct (TSMap.for_each_pass f m s1) as [[done s2] n].
  simpl in *. now rewrite IH.
Qed.

Lemma for_each_pass_count {St : Type} (f : TSMap.callback Key Value St)
    (m : omap) :
  forall s : St, snd (TSMap.for_each_pass f m s) <= length m.
Proof.
  induction m as [|[k v] m IH]; intros s; [reflexivity|].
  cbn [TSMap.for_each_pass].
  destruct (f k v s) as [[b v'] s1]. specialize (IH s1).
  destruct (TSMap.for_each_pass f m s1) as [[done s2] n].
  destruct b; simpl in *; lia.
Qed.

Lemma for_each_pass_logged {St : Type} (f : TSMap.callback Key Value St)
    (m : omap) :
  forall (log : list Key) (s : St),
    TSMap.for_each_pass (TSMap.logged f) m (log, s)
    = (fst (fst (TSMap.for_each_pass f m s)),
       (log ++ TSMap.getKeyList m, snd (fst (TSMap.for_each_pass f m s))),
       snd (TSMap.for_each_pass f m s)).
Proof.
  induction m as [|[k v] m IH]; intros log s.
  - simpl. now rewrite app_nil_r.
  - cbn [TSMap.for_each_pass]. unfold TSMap.logged at 1. simpl.
    destruct (f k v s) as [[b v'] s1]. rewrite IH.
    destruct (TSMap.for_each_pass f m s1) as [[done s2] n].
    simpl. rewrite <- app_assoc. reflexivity.
Qed.

Lemma for_each_pass_read_only {St : Type}
    (f : TSMap.callback_ro Key Value St) (m : omap) :
  forall s : St,
    TSMap.for_each_pass (TSMap.read_only f) m s
    = (m, fst (TSMap.for_each_ro_pass f m s),
       snd (TSMap.for_each_ro_pass f m s)).
Proof.
  induction m as [|[k v] m IH]; intros s; [reflexivity|].
  cbn [TSMap.for_each_pass TSMap.for_each_ro_pass].
  unfold TSMap.read_only at 1.
  destruct (f k v s) as [b s1]. rewrite IH.
  now destruct (TSMap.for_each_ro_pass f m s1) as [s2 n].
Qed.

Lemma for_each_ro_pass_logged {St : Type}
    (f : TSMap.callback_ro Key Value St) (m : omap) :
  forall (log : list Key) (s : St),
    TSMap.for_each_ro_pass (TSMap.logged_ro f) m (log, s)
    = ((log ++ TSMap.getKeyList m, fst (TSMap.for_each_ro_pass f m s)),
       snd (TSMap.for_each_ro_pass f m s)).
Proof.
  induction m as [|[k v] m IH]; intros log s.
  - simpl. now rewrite app_nil_r.
  - cbn [TSMap.for_each_ro_pass]. unfold TSMap.logged_ro at 1. simpl.
    destruct (f k v s) as [b s1]. rewrite IH.
    destruct (TSMap.for_each_ro_pass f m s1) as [s2 n].
    simpl. rewrite <- app_assoc. reflexivity.
Qed.

Lemma for_each_ro_pass_predicate (p : Key -> Value -> bool) (m : omap) :
  TSMap.for_each_ro_pass (TSMap.predicate_ro p) m tt
  = (tt, length (filter (fun e => p (fst e) (snd e)) m)).
Proof.
  induction m as [|[k v] m IH]; [reflexivity|].
  cbn [TSMap.for_each_ro_pass]. unfold TSMap.predicate_ro at 1.
  rewrite IH. simpl. now destruct (p k v).
Qed.

Lemma ordered_keys (m m' : omap) :
  StdMap.keys m = StdMap.keys m' -> StdMap.ordered m = StdMap.ordered m'.
Proof.
  revert m'. induction m as [|[k v] m IH]; intros [|[k' v'] m'] Hkeys;
    try discriminate; [reflexivity|].
  simpl in Hkeys. inversion Hkeys as [[Hk Hrest]]. subst k'.
  specialize (IH m' Hrest).
  destruct m as [|[k1 v1] m], m' as [|[k1' v1'] m'];
    try discriminate; [reflexivity|].
  change (key_lt k k1 && StdMap.ordered ((k1, v1) :: m)
          = key_lt k k1' && StdMap.ordered ((k1', v1') :: m')).
  simpl in Hrest. inversion Hrest. subst. now rewrite IH.
Qed.

(** ** Properties of the remaining methods *)

(** X1: on an ordered map [lower_bound_key(k)] returns, with [true], the
    entry of the least key that is not below [k] (the entry of [k] itself
    when it is stored), and [lower_bound(k)] its value; the flag is [false],
    with [Key{}] and [Value{}], exactly when every key is below [k]. *)
Theorem lower_bound_least_key_not_below (m : omap) (k : Key) :
  StdMap.ordered m = true ->
  let r := TSMap.lower_bound_key m k in
  TSMap.lower_bound m k = (snd (fst r), snd r) /\
  (snd r = true ->
   In (fst r) m /\ key_lt (fst (fst r)) k = false /\
   forall e, In e m -> key_lt (fst e) k = false ->
             key_lt (fst e) (fst (fst r)) = false) /\
  (snd r = false <-> StdMap.below k m) /\
  (snd r = false -> fst r = (key_default, value_default)) /\
  (forall v, In (k, v) m -> r = ((k, v), true)).
Proof.
  intros Hord r. subst r. unfold TSMap.lower_bound, TSMap.lower_bound_key.
  pose proof Hord as Hord0. split_around m k.
  - rewrite lower_bound_hit, length_located_neq, first_located,
      second_located by exact Hbelow. simpl.
    split; [reflexivity|]. split; [|split; [|split]].
    + intros _. split; [apply in_located; now left|].
      split; [apply key_lt_irrefl | trivial].
    + split; [discriminate|]. intros Hall.
      specialize (Hall (k, v0)). simpl in Hall.
      rewrite key_lt_irrefl in Hall. symmetry. apply Hall.
      apply in_located. now left.
    + discriminate.
    + intros v Hin. now rewrite (located_unique Hbelow Habove Hin).
  - rewrite lower_bound_miss by trivial.
    destruct post as [|[k1 v1] post].
    + unfold StdMap.end_. rewrite app_nil_r, Nat.eqb_refl. simpl.
      split; [reflexivity|]. split; [discriminate|].
      split; [split; [intros _; exact Hbelow | reflexivity]|].
      split; [reflexivity|].
      intros v Hin. destruct Habsent. rewrite app_nil_r.
      now apply key_of_entry in Hin.
    + rewrite length_located_neq, first_located, second_located. simpl.
      assert (Hk1 : key_lt k k1 = true) by (apply (Habove (k1, v1)); now left).
      split; [reflexivity|]. split; [|split; [|split]].
      * intros _. split; [apply in_located; now left|].
        split; [now apply key_lt_asym|].
        intros e Hin Hnb. apply in_located in Hin as [-> | Hin];
          [apply key_lt_irrefl|].
        apply in_app_or in Hin as [Hin | Hin].
        -- apply Hbelow in Hin. congruence.
        -- apply key_lt_asym.
           apply ordered_located in Hord as (_ & _ & Hup). now apply Hup.
      * split; [discriminate|]. intros Hall.
        assert (Hlow : key_lt k1 k = true)
          by (apply (Hall (k1, v1)), in_located; now left).
        apply key_lt_asym in Hlow. congruence.
      * discriminate.
      * intros v Hin. destruct Habsent. now apply key_of_entry in Hin.
Qed.

(** X2: on an ordered map [remove(k)] of a stored key returns its value and
    [true] and leaves the map without that entry and with every other entry;
    [find(k)] then fails and the size is one less.  For a key that is not
    stored it returns [Value{}] and [false] and the map is as before. *)
Theorem remove_takes_entry_out (m : omap) (k : Key) :
  StdMap.ordered m = true ->
  (forall v, In (k, v) m ->
     exists m',
       TSMap.remove m k = (m', (v, true)) /\
       StdMap.ordered m' = true /\
       (forall e, In e m' <-> In e m /\ fst e <> k) /\
       TSMap.find m' k = (value_default, false) /\
       S (TSMap.size m') = TSMap.size m) /\
  (~ In k (StdMap.keys m) ->
   TSMap.remove m k = (m, (value_default, false))).
Proof.
  intros Hord. pose proof Hord as Hord0. split_around m k.
  - split; [|intros Hnin; destruct Hnin; apply key_at_located].
    intros v Hin. rewrite (located_unique Hbelow Habove Hin).
    exists (pre ++ post). rewrite TSMap_remove_hit by exact Hbelow.
    split; [reflexivity|]. split; [now apply ordered_erased in Hord|].
    split; [intros e; now apply in_located_erased|].
    split; [now apply TSMap_find_miss|].
    unfold TSMap.size. rewrite !length_app. simpl. lia.
  - split; [|intros _; now apply TSMap_remove_miss].
    intros v Hin. destruct Habsent. now apply key_of_entry in Hin.
Qed.

(** X3: on an ordered map [replace(k, v, force)] leaves the map that
    [emplace(k, v, force)] leaves, and returns what [find(k)] answered
    before the call when the key was stored, with [false], and [v] with
    [true] when it was not. *)
Theorem replace_is_find_then_emplace (m : omap) (k : Key) (v : Value)
    (force : bool) :
  StdMap.ordered m = true ->
  TSMap.replace m k v force
  = (fst (TSMap.emplace m k v force),
     (if snd (TSMap.find m k) then fst (TSMap.find m k) else v,
      negb (snd (TSMap.find m k)))).
Proof.
  intros Hord. split_around m k.
  - rewrite TSMap_replace_hit, TSMap_emplace_hit, TSMap_find_hit by trivial.
    reflexivity.
  - rewrite TSMap_replace_miss, TSMap_emplace_miss, TSMap_find_miss
      by trivial.
    reflexivity.
Qed.

(** X4: on an ordered map [createInPlace(k, args...)] does what [emplace]
    without force does with the constructed value; on a key that is not
    stored it returns [true] and [find(k)] then returns that value. *)
Theorem createInPlace_is_emplace_without_force {Args : Type}
    (construct : Args -> Value) (m : omap) (k : Key) (args : Args) :
  StdMap.ordered m = true ->
  TSMap.createInPlace construct m k args
  = TSMap.emplace m k (construct args) false /\
  (~ In k (StdMap.keys m) ->
   snd (TSMap.createInPlace construct m k args) = true /\
   TSMap.find (fst (TSMap.createInPlace construct m k args)) k
   = (construct args, true)).
Proof.
  intros Hord. split_around m k.
  - rewrite TSMap_createInPlace_hit, TSMap_emplace_hit by trivial.
    split; [reflexivity|]. intros Hnin. destruct Hnin. apply key_at_located.
  - rewrite TSMap_createInPlace_miss, TSMap_emplace_miss by trivial.
    split; [reflexivity|]. intros _. simpl.
    split; [reflexivity | now apply TSMap_find_hit].
Qed.

(** X5: on an ordered map, inserting a key that is not stored and then
    taking it out again, by [remove] or by [erase] without a callable,
    gives the map back; [remove] returns the inserted value. *)
Theorem emplace_then_remove_round_trip {St : Type} (m : omap) (k : Key)
    (v : Value) (force : bool) (s : St) :
  StdMap.ordered m = true -> ~ In k (StdMap.keys m) ->
  TSMap.remove (fst (TSMap.emplace m k v force)) k = (m, (v, true)) /\
  TSMap.erase (fst (TSMap.emplace m k v force)) k
    (@None (TSMap.callback Key Value St)) s = (m, s, true).
Proof.
  intros Hord Hnin. split_around m k.
  - destruct Hnin. apply key_at_located.
  - rewrite TSMap_emplace_miss by trivial. simpl.
    now rewrite TSMap_remove_hit, TSMap_erase_hit.
Qed.

(** X6: on an ordered map a forced [emplace] overrides whatever an earlier
    [emplace] of the same key did: the map is the one the forced call alone
    would leave, and the call returns [true]. *)
Theorem emplace_force_last_write_wins (m : omap) (k : Key) (v1 v2 : Value)
    (force1 : bool) :
  StdMap.ordered m = true ->
  TSMap.emplace (fst (TSMap.emplace m k v1 force1)) k v2 true
  = (fst (TSMap.emplace m k v2 true), true).
Proof.
  intros Hord. split_around m k.
  - rewrite !TSMap_emplace_hit by trivial. simpl.
    destruct force1; now rewrite TSMap_emplace_hit.
  - rewrite !TSMap_emplace_miss by trivial. simpl.
    now rewrite TSMap_emplace_hit.
Qed.

(** X7: the writers keep the keys of the map strictly increasing: from an
    ordered map, [emplace], [createInPlace], [replace], [erase], [remove],
    [perform], [for_each], [delete_if] and [clear] all leave an ordered
    map, whatever the callables do to the values. *)
Theorem writers_keep_keys_ordered {St Args : Type} (m : omap) (k : Key)
    (v : Value) (force : bool) (construct : Args -> Value) (args : Args)
    (f : option (TSMap.callback Key Value St))
    (g : TSMap.callback Key Value St) (s : St) :
  StdMap.ordered m = true ->
  StdMap.ordered (fst (TSMap.emplace m k v force)) = true /\
  StdMap.ordered (fst (TSMap.createInPlace construct m k args)) = true /\
  StdMap.ordered (fst (TSMap.replace m k v force)) = true /\
  StdMap.ordered (fst (fst (TSMap.erase m k f s))) = true /\
  StdMap.ordered (fst (TSMap.remove m k)) = true /\
  StdMap.ordered (fst (fst (TSMap.perform m k f s))) = true /\
  (exists m' s' n,
      TSMap.for_each g m s = Some (m', s', n) /\
      StdMap.ordered m' = true) /\
  (exists m' s' n,
      TSMap.delete_if g m s = Some (m', s', n) /\
      StdMap.ordered m' = true) /\
  StdMap.ordered (TSMap.clear m) = true.
Proof.
  intros Hord.
  destruct (writers_around m k Hord)
    as (pre & post & Hb & Ha & Hpp & _ & Hemplace & Hcreate & Hreplace
        & Herase & Hremove & Hperform).
  pose proof (around_ordered k) as Hkeep.
  split; [now apply (Hkeep _ pre post)|].
  split; [now apply (Hkeep _ pre post)|].
  split; [now apply (Hkeep _ pre post)|].
  split; [now apply (Hkeep _ pre post)|].
  split; [now apply (Hkeep _ pre post)|].
  split; [now apply (Hkeep _ pre post)|].
  split; [|split; [|reflexivity]].
  - rewrite for_each_runs.
    pose proof (for_each_pass_keys g m s) as Hkeys.
    destruct (TSMap.for_each_pass g m s) as [[m' s'] n].
    exists m', s', n. split; [reflexivity|].
    now rewrite (ordered_keys m' m Hkeys).
  - rewrite delete_if_runs.
    pose proof (delete_if_spec_ordered g m s Hord) as Hord'.
    destruct (TSMap.delete_if_spec g m s) as [[m' s'] n]. eauto.
Qed.

(** X8: on an ordered map a writer called on the key [k] does not touch
    the other keys: for [k' <> k], [find(k')] answers after [emplace],
    [createInPlace], [replace], [erase], [remove] or [perform] on [k] what
    it answered before. *)
Theorem writers_leave_other_keys {St Args : Type} (m : omap) (k k' : Key)
    (v : Value) (force : bool) (construct : Args -> Value) (args : Args)
    (f : option (TSMap.callback Key Value St)) (s : St) :
  StdMap.ordered m = true -> k' <> k ->
  TSMap.find (fst (TSMap.emplace m k v force)) k' = TSMap.find m k' /\
  TSMap.find (fst (TSMap.createInPlace construct m k args)) k'
  = TSMap.find m k' /\
  TSMap.find (fst (TSMap.replace m k v force)) k' = TSMap.find m k' /\
  TSMap.find (fst (fst (TSMap.erase m k f s))) k' = TSMap.find m k' /\
  TSMap.find (fst (TSMap.remove m k)) k' = TSMap.find m k' /\
  TSMap.find (fst (fst (TSMap.perform m k f s))) k' = TSMap.find m k'.
Proof.
  intros Hord Hne.
  destruct (writers_around m k Hord)
    as (pre & post & Hb & Ha & Hpp & Hm & Hemplace & Hcreate & Hreplace
        & Herase & Hremove & Hperform).
  assert (Hsame : forall m',
             around k m' pre post -> TSMap.find m' k' = TSMap.find m k').
  { intros m' Hm'. apply find_ext; [exact Hord | |].
    - now apply (around_ordered k m' pre post).
    - intros v'. now apply (around_frame k m m' pre post (k', v')). }
  repeat split; now apply Hsame.
Qed.

(** X9: the size after a writer, on an ordered map: [emplace],
    [createInPlace] and [replace] add one entry exactly when [find(k)]
    failed before the call, and [remove] and [erase] without a callable
    take one out exactly when it succeeded; [size] is the length of
    [getKeyList]. *)
Theorem size_after_writers {St Args : Type} (m : omap) (k : Key) (v : Value)
    (force : bool) (construct : Args -> Value) (args : Args) (s : St) :
  StdMap.ordered m = true ->
  let found := snd (TSMap.find m k) in
  TSMap.size (fst (TSMap.emplace m k v force))
  = TSMap.size m + (if found then 0 else 1) /\
  TSMap.size (fst (TSMap.createInPlace construct m k args))
  = TSMap.size m + (if found then 0 else 1) /\
  TSMap.size (fst (TSMap.replace m k v force))
  = TSMap.size m + (if found then 0 else 1) /\
  TSMap.size (fst (TSMap.remove m k)) + (if found then 1 else 0)
  = TSMap.size m /\
  TSMap.size
    (fst (fst (TSMap.erase m k (@None (TSMap.callback Key Value St)) s)))
  + (if found then 1 else 0) = TSMap.size m /\
  TSMap.size m = length (TSMap.getKeyList m).
Proof.
  intros Hord found. subst found.
  assert (Hlen : TSMap.size m = length (TSMap.getKeyList m)).
  { unfold TSMap.size, TSMap.getKeyList, StdMap.keys.
    now rewrite length_map. }
  split_around m k.
  - rewrite TSMap_find_hit, TSMap_emplace_hit, TSMap_createInPlace_hit,
      TSMap_replace_hit, TSMap_remove_hit, TSMap_erase_hit by trivial.
    unfold TSMap.size in *. simpl.
    destruct force; rewrite !length_app; simpl; repeat split; try lia;
      rewrite <- Hlen, length_app; simpl; lia.
  - rewrite TSMap_find_miss, TSMap_emplace_miss, TSMap_createInPlace_miss,
      TSMap_replace_miss, TSMap_remove_miss, TSMap_erase_miss by trivial.
    unfold TSMap.size in *. simpl.
    rewrite !length_app; simpl; repeat split; try lia.
    now rewrite <- Hlen, length_app.
Qed.

(** X10: on an ordered map [perform(k, fn)] returns [false] and leaves the
    map as it is when [k] is not stored or [fn] is unset; otherwise it
    calls [fn] on the stored value, returns what [fn] answers, and the map
    holds for [k] the value [fn] left, with the same keys. *)
Theorem perform_applies_callable {St : Type} (m : omap) (k : Key)
    (f : option (TSMap.callback Key Value St)) (s : St) :
  StdMap.ordered m = true ->
  (~ In k (StdMap.keys m) \/ f = None ->
   TSMap.perform m k f s = (m, s, false)) /\
  (forall v fn, In (k, v) m -> f = Some fn ->
     exists m',
       TSMap.perform m k f s
       = (m', snd (fn k v s), fst (fst (fn k v s))) /\
       TSMap.find m' k = (snd (fst (fn k v s)), true) /\
       TSMap.getKeyList m' = TSMap.getKeyList m).
Proof.
  intros Hord. split.
  - intros [Hnin | ->]; [|apply TSMap_perform_unset].
    split_around m k; [destruct Hnin; apply key_at_located|].
    now apply TSMap_perform_miss.
  - intros v fn Hin ->. split_around m k.
    + rewrite (located_unique Hbelow Habove Hin).
      exists (pre ++ (k, snd (fst (fn k v0 s))) :: post).
      rewrite TSMap_perform_hit by exact Hbelow.
      split; [reflexivity|]. split; [now apply TSMap_find_hit|].
      apply keys_located.
    + destruct Habsent. now apply key_of_entry in Hin.
Qed.

(** X11: on an ordered map [perform_ro(k, fn)] returns [false] without
    calling [fn] when [k] is not stored or [fn] is unset, and otherwise
    what [fn] answers on the value that [find(k)] returns. *)
Theorem perform_ro_reads_stored_value {St : Type} (m : omap) (k : Key)
    (f : option (TSMap.callback_ro Key Value St)) (s : St) :
  StdMap.ordered m = true ->
  (~ In k (StdMap.keys m) \/ f = None ->
   TSMap.perform_ro m k f s = (s, false)) /\
  (forall v fn, TSMap.find m k = (v, true) -> f = Some fn ->
     TSMap.perform_ro m k f s = (snd (fn k v s), fst (fn k v s))).
Proof.
  intros Hord. split.
  - intros [Hnin | ->].
    + split_around m k; [destruct Hnin; apply key_at_located|].
      unfold TSMap.perform_ro. now rewrite find_miss, Nat.eqb_refl.
    + unfold TSMap.perform_ro. now destruct (_ =? _).
  - intros v fn Hfind ->. apply find_found_iff in Hfind; [|exact Hord].
    split_around m k.
    + rewrite (located_unique Hbelow Habove Hfind).
      unfold TSMap.perform_ro.
      rewrite find_hit, length_located_neq, second_located by exact Hbelow.
      now destruct (fn k v0 s).
    + destruct Habsent. now apply key_of_entry in Hfind.
Qed.

Lemma assign_second_same (m : omap) (it : StdMap.iterator) :
  StdMap.assign_second m it (StdMap.second m it) = m.
Proof.
  unfold StdMap.assign_second, StdMap.second, StdMap.deref.
  destruct (nth_error m it) as [[k0 v0]|] eqn:Hnth; [|reflexivity].
  rewrite (nth_error_nth m it _ Hnth). simpl.
  revert it Hnth. induction m as [|e m IH]; intros [|it] Hnth;
    try discriminate; simpl in *.
  - now inversion Hnth.
  - now rewrite IH.
Qed.

Lemma for_each_ro_pass_count {St : Type}
    (f : TSMap.callback_ro Key Value St) (m : omap) :
  forall s : St, snd (TSMap.for_each_ro_pass f m s) <= length m.
Proof.
  induction m as [|[k v] m IH]; intros s; [reflexivity|].
  cbn [TSMap.for_each_ro_pass].
  destruct (f k v s) as [b s1]. specialize (IH s1).
  destruct (TSMap.for_each_ro_pass f m s1) as [s2 n].
  destruct b; simpl in *; lia.
Qed.

(** X12: [for_each_ro(fn)] returns, and its result is that of one pass in
    iteration order: [fn] is called once on each entry, as the keys a
    recording callable sees show, and the result is the number of calls
    that answer [true], which is at most the size; for a predicate it is
    the number of entries that satisfy it. *)
Theorem for_each_ro_counts_successes {St : Type}
    (f : TSMap.callback_ro Key Value St) (p : Key -> Value -> bool)
    (m : omap) (s : St) :
  TSMap.for_each_ro f m s = Some (TSMap.for_each_ro_pass f m s) /\
  (exists s' n,
      TSMap.for_each_ro (TSMap.logged_ro f) m ([], s)
      = Some ((TSMap.getKeyList m, s'), n)) /\
  snd (TSMap.for_each_ro_pass f m s) <= TSMap.size m /\
  TSMap.for_each_ro (TSMap.predicate_ro p) m tt
  = Some (tt, length (filter (fun e => p (fst e) (snd e)) m)).
Proof.
  split; [apply for_each_ro_runs|]. split; [|split].
  - rewrite for_each_ro_runs, for_each_ro_pass_logged. simpl. eauto.
  - apply for_each_ro_pass_count.
  - now rewrite for_each_ro_runs, for_each_ro_pass_predicate.
Qed.

(** X13: [for_each(fn)] returns, and its result is that of one pass in
    iteration order: [fn] is called once on each entry, the map keeps its
    keys (only the values may change), and the result is the number of
    calls that answer [true], at most the size. *)
Theorem for_each_keeps_keys {St : Type} (f : TSMap.callback Key Value St)
    (m : omap) (s : St) :
  exists m' s' n,
    TSMap.for_each f m s = Some (m', s', n) /\
    (m', s', n) = TSMap.for_each_pass f m s /\
    TSMap.getKeyList m' = TSMap.getKeyList m /\
    TSMap.size m' = TSMap.size m /\
    n <= TSMap.size m /\
    exists n',
      TSMap.for_each (TSMap.logged f) m ([], s)
      = Some (m', (TSMap.getKeyList m, s'), n').
Proof.
  pose proof (for_each_pass_keys f m s) as Hkeys.
  pose proof (for_each_pass_count f m s) as Hcount.
  pose proof (for_each_pass_logged f m [] s) as Hlog.
  rewrite !for_each_runs, Hlog.
  destruct (TSMap.for_each_pass f m s) as [[m' s'] n]. simpl in *.
  exists m', s', n. repeat split; trivial.
  - unfold TSMap.size. apply (f_equal (@length Key)) in Hkeys.
    unfold StdMap.keys in Hkeys. now rewrite !length_map in Hkeys.
  - now exists n.
Qed.

(** X14: with a callable that does not write the value, [perform] and
    [for_each] leave the map as it is and return what [perform_ro] and
    [for_each_ro] return. *)
Theorem read_only_callable_keeps_map {St : Type} (m : omap) (k : Key)
    (f : option (TSMap.callback_ro Key Value St))
    (g : TSMap.callback_ro Key Value St) (s : St) :
  TSMap.perform m k (option_map TSMap.read_only f) s
  = (m, fst (TSMap.perform_ro m k f s), snd (TSMap.perform_ro m k f s)) /\
  TSMap.for_each (TSMap.read_only g) m s
  = option_map (fun r => (m, fst r, snd r)) (TSMap.for_each_ro g m s).
Proof.
  split.
  - unfold TSMap.perform, TSMap.perform_ro.
    destruct (_ =? _); [now destruct f|].
    destruct f as [fn|]; [|reflexivity]. simpl. unfold TSMap.read_only.
    destruct (fn k _ s) as [b s']. now rewrite assign_second_same.
  - now rewrite for_each_runs, for_each_ro_runs, for_each_pass_read_only.
Qed.

Lemma filter_filter_negb (p : Key * Value -> bool) (m : omap) :
  filter p (filter (fun e => negb (p e)) m) = [] /\
  filter (fun e => negb (p e)) (filter (fun e => negb (p e)) m)
  = filter (fun e => negb (p e)) m.
Proof.
  induction m as [|e m [IH1 IH2]]; [now split|].
  simpl. destruct (p e) eqn:Hp; simpl; [now split|].
  rewrite Hp. simpl. now rewrite IH1, IH2.
Qed.

(** X15: for a predicate, [delete_if] erases as many entries as
    [for_each_ro] counts with the same predicate; afterwards [for_each_ro]
    counts none and a second [delete_if] erases nothing and leaves the map
    as it is. *)
Theorem delete_if_leaves_no_match (p : Key -> Value -> bool) (m : omap) :
  exists m' n,
    TSMap.delete_if (TSMap.predicate p) m tt = Some (m', tt, n) /\
    TSMap.for_each_ro (TSMap.predicate_ro p) m tt = Some (tt, n) /\
    TSMap.for_each_ro (TSMap.predicate_ro p) m' tt = Some (tt, 0) /\
    TSMap.delete_if (TSMap.predicate p) m' tt = Some (m', tt, 0) /\
    TSMap.size m' + n = TSMap.size m.
Proof.
  destruct (filter_filter_negb (fun e => p (fst e) (snd e)) m) as [Hnone Hsame].
  pose proof (delete_if_spec_count (TSMap.predicate p) m tt) as Hcount.
  rewrite delete_if_spec_predicate in Hcount. simpl in Hcount.
  eexists _, _.
  rewrite !delete_if_runs, !for_each_ro_runs, !delete_if_spec_predicate,
    !for_each_ro_pass_predicate.
  split; [reflexivity|]. split; [reflexivity|].
  rewrite Hnone, Hsame. repeat split. exact Hcount.
Qed.

(** X16: the loop of [getKeyList] returns one key per entry, in iteration
    order; on an ordered map the list is strictly increasing, has no key
    twice, and holds exactly the keys that [find] finds. *)
Theorem getKeyList_ascending_keys (m : omap) :
  StdMap.ordered m = true ->
  exists keyList,
    TSMap.getKeyList_iter m = Some keyList /\
    length keyList = TSMap.size m /\
    StronglySorted (fun a b => key_lt a b = true) keyList /\
    NoDup keyList /\
    (forall k, In k keyList <-> snd (TSMap.find m k) = true).
Proof.
  intros Hord. exists (TSMap.getKeyList m).
  split; [apply getKeyList_iter_runs|].
  split; [unfold TSMap.getKeyList, StdMap.keys; apply length_map|].
  split; [|split].
  - unfold TSMap.getKeyList, StdMap.keys. clear -Hord KeyLaws0.
    induction m as [|[k v] m IH]; [constructor|].
    apply ordered_cons in Hord as [Hord Hk]. simpl. constructor.
    + now apply IH.
    + apply Forall_forall. intros k' Hin.
      apply in_map_iff in Hin as (e & <- & Hin). now apply Hk.
  - unfold TSMap.getKeyList, StdMap.keys. clear -Hord KeyLaws0.
    induction m as [|[k v] m IH]; [constructor|].
    apply ordered_cons in Hord as [Hord Hk]. simpl. constructor.
    + intros Hin. apply in_map_iff in Hin as (e & He & Hin).
      apply Hk in Hin. rewrite He, key_lt_irrefl in Hin. discriminate.
    + now apply IH.
  - intros k. symmetry. now apply find_flag_iff.
Qed.

(** X17: [empty()] holds exactly when [size()] is 0, and on an ordered map
    exactly when [find] fails for every key; it holds for a new map and
    after [clear()]. *)
Theorem empty_iff_nothing_found (m : omap) :
  StdMap.ordered m = true ->
  (TSMap.empty m = true <-> TSMap.size m = 0) /\
  (TSMap.empty m = true <-> forall k, snd (TSMap.find m k) = false) /\
  TSMap.empty (TSMap.clear m) = true /\
  TSMap.empty (@TSMap.create Key Value) = true.
Proof.
  intros Hord. split; [|split; [|now split]].
  - unfold TSMap.empty, TSMap.size, StdMap.begin, StdMap.end_.
    rewrite Nat.eqb_eq. split; intros Heq; now rewrite Heq.
  - destruct m as [|[k0 v0] m].
    + split; [|reflexivity]. intros _ k. reflexivity.
    + split; [discriminate|]. intros Hnone. specialize (Hnone k0).
      assert (Hfound : snd (TSMap.find ((k0, v0) :: m) k0) = true).
      { apply find_flag_iff; [exact Hord | now left]. }
      congruence.
Qed.

(** X18: on an ordered map with [k] not stored, when [findInfimum_key(k)]
    and [lower_bound_key(k)] both find an entry, their keys enclose [k]
    strictly and no stored key lies strictly between them; when [k] is
    stored, [find], [lower_bound] and [findInfimum] return the same. *)
Theorem infimum_and_lower_bound_enclose (m : omap) (k : Key) :
  StdMap.ordered m = true ->
  (forall e0 e1,
      ~ In k (StdMap.keys m) ->
      TSMap.findInfimum_key m k = (e0, true) ->
      TSMap.lower_bound_key m k = (e1, true) ->
      key_lt (fst e0) k = true /\ key_lt k (fst e1) = true /\
      forall e, In e m ->
                key_lt (fst e0) (fst e) = true ->
                key_lt (fst e) (fst e1) = false) /\
  (forall v, In (k, v) m ->
      TSMap.find m k = (v, true) /\
      TSMap.lower_bound m k = (v, true) /\
      TSMap.findInfimum m k = (v, true)).
Proof.
  intros Hord.
  pose proof (findInfimum_key_greatest m k Hord) as Hinf.
  pose proof (lower_bound_least_key_not_below m k Hord) as Hlow.
  simpl in Hinf, Hlow.
  destruct Hinf as (Hinfv & Hinf & _ & _ & Hinfk & _).
  destruct Hlow as (Hlowv & Hlow & _ & _ & Hlowk).
  split.
  - intros e0 e1 Hnin He0 He1. rewrite He0 in Hinf. rewrite He1 in Hlow.
    simpl in Hinf, Hlow.
    destruct (Hinf eq_refl) as (Hin0 & Hle0 & Hmax).
    destruct (Hlow eq_refl) as (Hin1 & Hge1 & Hmin).
    assert (Hne0 : fst e0 <> k).
    { intros Heq. apply Hnin. rewrite <- Heq. destruct e0.
      now apply key_of_entry in Hin0. }
    assert (Hne1 : fst e1 <> k).
    { intros Heq. apply Hnin. rewrite <- Heq. destruct e1.
      now apply key_of_entry in Hin1. }
    split; [apply key_lt_connex; [congruence | exact Hle0]|].
    split; [apply key_lt_connex; [exact Hne1 | exact Hge1]|].
    intros e Hin Hgt.
    destruct (key_lt (fst e) k) eqn:Hek.
    + destruct (key_lt k (fst e)) eqn:Hke.
      * apply key_lt_asym in Hke. congruence.
      * specialize (Hmax e Hin Hke). congruence.
    + destruct (key_lt (fst e) (fst e1)) eqn:Hee1; [|reflexivity].
      specialize (Hmin e Hin Hek). congruence.
  - intros v Hin. split; [now apply find_found_iff|].
    rewrite Hlowv, Hinfv, (Hlowk v Hin), (Hinfk v Hin). now split.
Qed.

(** X20: [delete_if] with a predicate that holds of every entry empties
    the map, as [clear()] does, and returns the size; with a predicate that
    holds of none it erases nothing. *)
Theorem delete_if_all_or_nothing (m : omap) :
  TSMap.delete_if (TSMap.predicate (fun _ _ => true)) m tt
  = Some (TSMap.clear m, tt, TSMap.size m) /\
  TSMap.delete_if (TSMap.predicate (fun _ _ => false)) m tt
  = Some (m, tt, 0).
Proof.
  rewrite !delete_if_runs, !delete_if_spec_predicate. simpl. split.
  - do 2 f_equal.
    + f_equal. induction m as [|e m IH]; [reflexivity | exact IH].
    + unfold TSMap.size. induction m as [|e m IH]; [reflexivity|].
      simpl. now rewrite IH.
  - do 2 f_equal.
    + f_equal. induction m as [|e m IH]; [reflexivity|].
      simpl. now rewrite IH.
    + induction m as [|e m IH]; [reflexivity | exact IH].
Qed.

(** X21: on an ordered map [erase(k)] without a callable and [remove(k)]
    leave the same map, and [erase] returns the flag that [remove]
    returns, which is the one [find(k)] returned before. *)
Theorem erase_without_callable_is_remove {St : Type} (m : omap) (k : Key)
    (s : St) :
  StdMap.ordered m = true ->
  TSMap.erase m k (@None (TSMap.callback Key Value St)) s
  = (fst (TSMap.remove m k), s, snd (snd (TSMap.remove m k))) /\
  TSMap.remove m k
  = (fst (TSMap.remove m k), TSMap.find m k).
Proof.
  intros Hord. split_around m k.
  - now rewrite TSMap_erase_hit, TSMap_remove_hit, TSMap_find_hit.
  - now rewrite TSMap_erase_miss, TSMap_remove_miss, TSMap_find_miss.
Qed.

(** X22: on an ordered map [emplace(k, v, force)] returns [true] exactly
    when [force] is set or [find(k)] failed before the call, with an
    entry already stored or not; when it returns [true], [find(k)] then
    returns [(v, true)], and when it returns [false] the map is as
    before. *)
Theorem emplace_returns_force_or_absent (m : omap) (k : Key) (v : Value)
    (force : bool) :
  StdMap.ordered m = true ->
  snd (TSMap.emplace m k v force) = force || negb (snd (TSMap.find m k)) /\
  (snd (TSMap.emplace m k v force) = true ->
   TSMap.find (fst (TSMap.emplace m k v force)) k = (v, true)) /\
  (snd (TSMap.emplace m k v force) = false ->
   fst (TSMap.emplace m k v force) = m).
Proof.
  intros Hord. split_around m k.
  - rewrite TSMap_emplace_hit, TSMap_find_hit by trivial. simpl.
    split; [now rewrite orb_false_r|].
    destruct force; simpl; split; try discriminate; trivial.
    intros _. now apply TSMap_find_hit.
  - rewrite TSMap_emplace_miss, TSMap_find_miss by trivial. simpl.
    split; [now rewrite orb_true_r|]. split; [|discriminate].
    intros _. now apply TSMap_find_hit.
Qed.

End TSMapMore.

(** X19: neither the lock nor the map can be copied or moved, by
    construction or by assignment: [shared_mutex] deletes its copy
    operations, which also suppresses the implicit move operations, and
    [TSMap] holds a [shared_mutex] and declares a destructor. *)
Theorem lock_and_map_not_copyable :
  SharedLock.copy_constructible Classes.shared_mutex_class = false /\
  SharedLock.copy_assignable Classes.shared_mutex_class = false /\
  SharedLock.move_constructible Classes.shared_mutex_class = false /\
  SharedLock.move_assignable Classes.shared_mutex_class = false /\
  SharedLock.copy_constructible Classes.TSMap_class = false /\
  SharedLock.copy_assignable Classes.TSMap_class = false /\
  SharedLock.move_constructible Classes.TSMap_class = false /\
  SharedLock.move_assignable Classes.TSMap_class = false.
Proof. repeat split. Qed.

(** ** The properties at concrete maps *)

Lemma lower_bound_least_key_not_below_witness :
  StdMap.ordered infimum_example = true /\
  TSMap.lower_bound infimum_example 7%Z = ("c"%string, true) /\
  In (fst (TSMap.lower_bound_key infimum_example 7%Z)) infimum_example.
Proof.
  assert (Hord : StdMap.ordered infimum_example = true) by reflexivity.
  split; [exact Hord|].
  destruct (lower_bound_least_key_not_below infimum_example 7%Z Hord)
    as (Hvalue & Hfound & _).
  split; [exact Hvalue | exact (proj1 (Hfound eq_refl))].
Defined.

Lemma remove_takes_entry_out_witness :
  StdMap.ordered one_entry = true /\
  In (1%Z, 10%Z) one_entry /\
  exists m',
    TSMap.remove one_entry 1%Z = (m', (10%Z, true)) /\
    TSMap.find m' 1%Z = (0%Z, false).
Proof.
  assert (Hord : StdMap.ordered one_entry = true) by reflexivity.
  split; [exact Hord|]. split; [simpl; tauto|].
  destruct (proj1 (remove_takes_entry_out one_entry 1%Z Hord)
              10%Z (or_introl eq_refl))
    as (m' & Hcall & _ & _ & Hfind & _).
  exists m'. split; [exact Hcall | exact Hfind].
Defined.

Lemma replace_is_find_then_emplace_witness :
  StdMap.ordered one_entry = true /\
  TSMap.replace one_entry 1%Z 20%Z false
  = (fst (TSMap.emplace one_entry 1%Z 20%Z false),
     (if snd (TSMap.find one_entry 1%Z)
      then fst (TSMap.find one_entry 1%Z) else 20%Z,
      negb (snd (TSMap.find one_entry 1%Z)))).
Proof.
  assert (Hord : StdMap.ordered one_entry = true) by reflexivity.
  split; [exact Hord|].
  exact (replace_is_find_then_emplace one_entry 1%Z 20%Z false Hord).
Defined.

Lemma createInPlace_is_emplace_without_force_witness :
  StdMap.ordered one_entry = true /\
  ~ In 2%Z (StdMap.keys one_entry) /\
  TSMap.find (fst (TSMap.createInPlace Z.of_nat one_entry 2%Z 7)) 2%Z
  = (7%Z, true).
Proof.
  assert (Hord : StdMap.ordered one_entry = true) by reflexivity.
  assert (Hnin : ~ In 2%Z (StdMap.keys one_entry))
    by (simpl; intros [Heq | []]; discriminate Heq).
  split; [exact Hord|]. split; [exact Hnin|].
  exact (proj2 (proj2 (createInPlace_is_emplace_without_force
                         Z.of_nat one_entry 2%Z 7 Hord) Hnin)).
Defined.

Lemma emplace_then_remove_round_trip_witness :
  StdMap.ordered one_entry = true /\
  ~ In 2%Z (StdMap.keys one_entry) /\
  TSMap.remove (fst (TSMap.emplace one_entry 2%Z 5%Z false)) 2%Z
  = (one_entry, (5%Z, true)).
Proof.
  assert (Hord : StdMap.ordered one_entry = true) by reflexivity.
  assert (Hnin : ~ In 2%Z (StdMap.keys one_entry))
    by (simpl; intros [Heq | []]; discriminate Heq).
  split; [exact Hord|]. split; [exact Hnin|].
  exact (proj1 (emplace_then_remove_round_trip one_entry 2%Z 5%Z false tt
                  Hord Hnin)).
Defined.

Lemma emplace_force_last_write_wins_witness :
  StdMap.ordered one_entry = true /\
  TSMap.emplace (fst (TSMap.emplace one_entry 1%Z 20%Z false)) 1%Z 30%Z true
  = (fst (TSMap.emplace one_entry 1%Z 30%Z true), true).
Proof.
  assert (Hord : StdMap.ordered one_entry = true) by reflexivity.
  split; [exact Hord|].
  exact (emplace_force_last_write_wins one_entry 1%Z 20%Z 30%Z false Hord).
Defined.

Lemma writers_keep_keys_ordered_witness :
  StdMap.ordered one_entry = true /\
  StdMap.ordered (fst (TSMap.emplace one_entry 0%Z 5%Z false)) = true /\
  StdMap.ordered
    (fst (fst (TSMap.perform one_entry 1%Z (Some veto_and_write) tt))) = true.
Proof.
  assert (Hord : StdMap.ordered one_entry = true) by reflexivity.
  split; [exact Hord|].
  destruct (writers_keep_keys_ordered one_entry 0%Z 5%Z false Z.of_nat 7
              (Some veto_and_write) veto tt Hord)
    as (Hemplace & _).
  destruct (writers_keep_keys_ordered one_entry 1%Z 5%Z false Z.of_nat 7
              (Some veto_and_write) veto tt Hord)
    as (_ & _ & _ & _ & _ & Hperform & _).
  split; [exact Hemplace | exact Hperform].
Defined.

Lemma writers_leave_other_keys_witness :
  StdMap.ordered infimum_example = true /\
  10%Z <> 5%Z /\
  TSMap.find (fst (TSMap.remove infimum_example 5%Z)) 10%Z
  = TSMap.find infimum_example 10%Z.
Proof.
  assert (Hord : StdMap.ordered infimum_example = true) by reflexivity.
  assert (Hne : 10%Z <> 5%Z) by discriminate.
  split; [exact Hord|]. split; [exact Hne|].
  destruct (writers_leave_other_keys infimum_example 5%Z 10%Z
              "x"%string false (fun _ : unit => "y"%string) tt
              (@None (TSMap.callback Z string unit)) tt Hord Hne)
    as (_ & _ & _ & _ & Hremove & _).
  exact Hremove.
Defined.

Lemma size_after_writers_witness :
  StdMap.ordered one_entry = true /\
  TSMap.size (fst (TSMap.emplace one_entry 2%Z 5%Z false))
  = TSMap.size one_entry + (if snd (TSMap.find one_entry 2%Z) then 0 else 1).
Proof.
  assert (Hord : StdMap.ordered one_entry = true) by reflexivity.
  split; [exact Hord|].
  exact (proj1 (size_after_writers one_entry 2%Z 5%Z false Z.of_nat 7 tt
                  Hord)).
Defined.

Lemma perform_applies_callable_witness :
  StdMap.ordered one_entry = true /\
  In (1%Z, 10%Z) one_entry /\
  exists m',
    TSMap.perform one_entry 1%Z (Some veto_and_write) tt = (m', tt, false) /\
    TSMap.find m' 1%Z = (99%Z, true).
Proof.
  assert (Hord : StdMap.ordered one_entry = true) by reflexivity.
  split; [exact Hord|]. split; [simpl; tauto|].
  destruct (proj2 (perform_applies_callable one_entry 1%Z
                     (Some veto_and_write) tt Hord)
              10%Z veto_and_write (or_introl eq_refl) eq_refl)
    as (m' & Hcall & Hfind & _).
  exists m'. split; [exact Hcall | exact Hfind].
Defined.

Lemma perform_ro_reads_stored_value_witness :
  StdMap.ordered one_entry = true /\
  TSMap.find one_entry 1%Z = (10%Z, true) /\
  TSMap.perform_ro one_entry 1%Z (Some is_ten) tt = (tt, true).
Proof.
  assert (Hord : StdMap.ordered one_entry = true) by reflexivity.
  assert (Hfind : TSMap.find one_entry 1%Z = (10%Z, true)) by reflexivity.
  split; [exact Hord|]. split; [exact Hfind|].
  exact (proj2 (perform_ro_reads_stored_value one_entry 1%Z (Some is_ten) tt
                  Hord) 10%Z is_ten Hfind eq_refl).
Defined.

Lemma getKeyList_ascending_keys_witness :
  StdMap.ordered infimum_example = true /\
  exists keyList,
    TSMap.getKeyList_iter infimum_example = Some keyList /\
    NoDup keyList.
Proof.
  assert (Hord : StdMap.ordered infimum_example = true) by reflexivity.
  split; [exact Hord|].
  destruct (getKeyList_ascending_keys infimum_example Hord)
    as (keyList & Hrun & _ & _ & Hnodup & _).
  exists keyList. split; [exact Hrun | exact Hnodup].
Defined.

Lemma empty_iff_nothing_found_witness :
  StdMap.ordered one_entry = true /\
  (TSMap.empty one_entry = true <-> TSMap.size one_entry = 0).
Proof.
  assert (Hord : StdMap.ordered one_entry = true) by reflexivity.
  split; [exact Hord|].
  exact (proj1 (empty_iff_nothing_found one_entry Hord)).
Defined.

Lemma infimum_and_lower_bound_enclose_witness :
  StdMap.ordered infimum_example = true /\
  ~ In 7%Z (StdMap.keys infimum_example) /\
  TSMap.findInfimum_key infimum_example 7%Z = ((5%Z, "b"%string), true) /\
  TSMap.lower_bound_key infimum_example 7%Z = ((10%Z, "c"%string), true) /\
  key_lt 5%Z 7%Z = true /\ key_lt 7%Z 10%Z = true.
Proof.
  assert (Hord : StdMap.ordered infimum_example = true) by reflexivity.
  assert (Hnin : ~ In 7%Z (StdMap.keys infimum_example))
    by (simpl; intros [Heq | [Heq | [Heq | []]]]; discriminate Heq).
  split; [exact Hord|]. split; [exact Hnin|].
  split; [reflexivity|]. split; [reflexivity|].
  destruct (proj1 (infimum_and_lower_bound_enclose infimum_example 7%Z Hord)
              (5%Z, "b"%string) (10%Z, "c"%string) Hnin eq_refl eq_refl)
    as (Hbelow & Habove & _).
  split; [exact Hbelow | exact Habove].
Defined.

Lemma erase_without_callable_is_remove_witness :
  StdMap.ordered one_entry = true /\
  TSMap.remove one_entry 1%Z
  = (fst (TSMap.remove one_entry 1%Z), TSMap.find one_entry 1%Z).
Proof.
  assert (Hord : StdMap.ordered one_entry = true) by reflexivity.
  split; [exact Hord|].
  exact (proj2 (erase_without_callable_is_remove one_entry 1%Z tt Hord)).
Defined.

Lemma emplace_returns_force_or_absent_witness :
  StdMap.ordered one_entry = true /\
  snd (TSMap.emplace one_entry 1%Z 20%Z true)
  = true || negb (snd (TSMap.find one_entry 1%Z)).
Proof.
  assert (Hord : StdMap.ordered one_entry = true) by reflexivity.
  split; [exact Hord|].
  exact (proj1 (emplace_returns_force_or_absent one_entry 1%Z 20%Z true
                  Hord)).
Defined.
